(** * hooks-belt: timing and fetch-lifecycle hooks

    A shallow embedding of the hooks [useFetch], [useThrottle] and
    [useInterval] (and of [useDebounce] as the specification describes it),
    together with the properties the specification states about them,
    followed by the smaller hooks of the library ([useToggle],
    [usePrevious], [useWindowSize], [useMediaQuery], [useOnClickOutside],
    [useDownloadFile]) and further properties read off the code.

    Conventions of the embedding.
    - Time is the value of [Date.now()], an integer number of milliseconds
      ([Z]); delays are integers as well.
    - The JavaScript event loop is single threaded: every handler (a render
      with its effects, a call of a returned function, a timer callback, the
      continuation of an [await]) runs to completion.  Each handler is one
      transition of the hook's state; a history is a list of such events.
    - A render and the effects it commits are one transition.
    - Timer handles are the positive integers handed out by
      [setTimeout]/[setInterval]; the timer table is a finite map from
      handles to what the timer will do.
    - React drops state updates of a component that has been unmounted; the
      state setters below carry that guard, refs ([useRef]) do not. *)

From stdpp Require Import base gmap list strings pretty.
From Stdlib Require Import ZArith Lia.

Local Open Scope string_scope.
Local Open Scope list_scope.
Local Open Scope Z_scope.

(** ** useFetch (src/hooks/useFetch.ts) *)

Module Fetch.

(** A JavaScript [Error]; only its message is observed. *)
Record Error := mkError { message : string }.

(** What a rejected promise (or a [throw]) carries: an [Error] instance or
    any other value. *)
Inductive Thrown :=
| ThrownError (e : Error)
| ThrownOther.

(** [err instanceof Error ? err : new Error('An error occurred')] *)
Definition normalize (err : Thrown) : Error :=
  match err with
  | ThrownError e => e
  | ThrownOther => mkError "An error occurred"
  end.

(** [new Error(`HTTP error! status: ${response.status}`)] *)
Definition http_error (status : nat) : Error :=
  mkError ("HTTP error! status: " +:+ pretty status).

(** The two [await] points of [fetchData]. *)
Inductive Stage :=
| AwaitFetch   (* suspended at [await fetch(url, options)] *)
| AwaitJson.   (* suspended at [await response.json()] *)

(** Why [fetchData] is called: the effect on mount, the effect re-running
    because [url] or [options] changed, or the consumer calling [refetch]. *)
Inductive Cause := Mount | DescriptorChange | Refetch.

Section useFetch.
Context {T : Type}.

(** The three [useState] cells, whether the component is still mounted,
    and the calls of [fetchData] that are suspended at an [await].
    [issued] counts the calls made so far; call number [n] is the [n]-th
    trigger. [data = None] is JavaScript's [null]. *)
Record State := mkState {
  data : option T;
  loading : bool;
  error : option Error;
  mounted : bool;
  pending : gmap nat Stage;
  issued : nat
}.

(** The setters [useState] hands out. React ignores a state update of a
    component that is no longer mounted. *)
Definition setData (v : option T) (st : State) : State :=
  if mounted st
  then mkState v (loading st) (error st) (mounted st) (pending st) (issued st)
  else st.

Definition setLoading (b : bool) (st : State) : State :=
  if mounted st
  then mkState (data st) b (error st) (mounted st) (pending st) (issued st)
  else st.

Definition setError (e : option Error) (st : State) : State :=
  if mounted st
  then mkState (data st) (loading st) e (mounted st) (pending st) (issued st)
  else st.

(** Bookkeeping of the suspended calls; not React state. *)
Definition set_pending (p : gmap nat Stage) (st : State) : State :=
  mkState (data st) (loading st) (error st) (mounted st) p (issued st).

(** [useState(null)], [useState(true)], [useState(null)] *)
Definition init : State := mkState None true None true ∅ 0.

(** What the hook returns to the consumer. *)
Definition visible (st : State) : option T * bool * option Error :=
  (data st, loading st, error st).

(** [fetchData] up to its first [await]:
    [setLoading(true); setError(null); fetch(url, options)]. *)
Definition fetchData_start (st : State) : State :=
  let st := setError None (setLoading true st) in
  mkState (data st) (loading st) (error st) (mounted st)
          (<[issued st := AwaitFetch]> (pending st)) (S (issued st)).

(** [catch (err) { setError(...) } finally { setLoading(false) }] *)
Definition settle_failure (op : nat) (e : Error) (st : State) : State :=
  let st := setLoading false (setError (Some e) st) in
  set_pending (delete op (pending st)) st.

(** [setData(result)] then [finally { setLoading(false) }] *)
Definition settle_success (op : nat) (result : option T) (st : State) : State :=
  let st := setLoading false (setData result st) in
  set_pending (delete op (pending st)) st.

Inductive Event :=
| Trigger (why : Cause)
| FetchResolved (op : nat) (ok : bool) (status : nat)
| FetchRejected (op : nat) (reason : Thrown)
| JsonResolved (op : nat) (result : option T)
| JsonRejected (op : nat) (reason : Thrown)
| Unmount.

(** One handler of the event loop. [None]: the event cannot happen in
    this state (the call is not suspended at that [await]). *)
Definition step (ev : Event) (st : State) : option State :=
  match ev with
  | Trigger _ => Some (fetchData_start st)
  | FetchResolved op ok status =>
      match pending st !! op with
      | Some AwaitFetch =>
          if ok
          then Some (set_pending (<[op := AwaitJson]> (pending st)) st)
          else Some (settle_failure op (http_error status) st)
      | _ => None
      end
  | FetchRejected op reason =>
      match pending st !! op with
      | Some AwaitFetch => Some (settle_failure op (normalize reason) st)
      | _ => None
      end
  | JsonResolved op result =>
      match pending st !! op with
      | Some AwaitJson => Some (settle_success op result st)
      | _ => None
      end
  | JsonRejected op reason =>
      match pending st !! op with
      | Some AwaitJson => Some (settle_failure op (normalize reason) st)
      | _ => None
      end
  | Unmount =>
      (* the effect returns no cleanup: nothing is cancelled *)
      Some (mkState (data st) (loading st) (error st) false
                    (pending st) (issued st))
  end.

Fixpoint run (evs : list Event) (st : State) : option State :=
  match evs with
  | [] => Some st
  | ev :: evs => st' ← step ev st; run evs st'
  end.

(** The three ways a call of [fetchData] fails. *)
Inductive Failure :=
| TransportRejects (reason : Thrown)   (* [fetch] rejects *)
| NotOk (status : nat)                 (* [response.ok] is false *)
| DecodeRejects (reason : Thrown).     (* [response.json()] rejects *)

Definition failure_event (op : nat) (f : Failure) : Event :=
  match f with
  | TransportRejects r => FetchRejected op r
  | NotOk status => FetchResolved op false status
  | DecodeRejects r => JsonRejected op r
  end.

Definition failure_stage (f : Failure) : Stage :=
  match f with
  | TransportRejects _ | NotOk _ => AwaitFetch
  | DecodeRejects _ => AwaitJson
  end.

Definition failure_error (f : Failure) : Error :=
  match f with
  | TransportRejects r | DecodeRejects r => normalize r
  | NotOk status => http_error status
  end.

(** The events that write [data]. *)
Definition is_success (ev : Event) : bool :=
  match ev with JsonResolved _ _ => true | _ => false end.

(** The payload decoded last in a history, or [d] when none was. *)
Fixpoint last_decoded (evs : list Event) (d : option T) : option T :=
  match evs with
  | [] => d
  | JsonResolved _ result :: evs => last_decoded evs result
  | _ :: evs => last_decoded evs d
  end.

(** Histories in which the component is not unmounted. *)
Definition stays_mounted (evs : list Event) : bool :=
  forallb (λ ev, match ev with Unmount => false | _ => true end) evs.

(** The call an event settles, if it settles one. *)
Definition settles (ev : Event) : option nat :=
  match ev with
  | FetchResolved op false _ | FetchRejected op _
  | JsonResolved op _ | JsonRejected op _ => Some op
  | _ => None
  end.

(** How a call of [fetchData] ends, and the handlers that run from its
    first [await] to that end when nothing else happens in between
    ([response.ok] holds for the statuses 200 to 299; 200 stands for them). *)
Inductive Outcome :=
| Succeeds (result : option T)
| Fails (f : Failure).

Definition completes (op : nat) (o : Outcome) : list Event :=
  match o with
  | Succeeds result => [FetchResolved op true 200; JsonResolved op result]
  | Fails (DecodeRejects r) => [FetchResolved op true 200; JsonRejected op r]
  | Fails f => [failure_event op f]
  end.

(** What the consumer sees once a call that started with [before] in
    [data] has ended, if no other call has written since. *)
Definition result_of (o : Outcome) (before : option T)
    : option T * bool * option Error :=
  match o with
  | Succeeds result => (result, false, None)
  | Fails f => (before, false, Some (failure_error f))
  end.

(** The staleness guard the specification describes: in every state the
    hook can reach, the settlement of a call that is not the most recent
    one leaves what the consumer sees untouched. *)
Definition staleness_guard : Prop :=
  ∀ evs st ev op st',
    run evs init = Some st →
    settles ev = Some op →
    S op ≠ issued st →
    step ev st = Some st' →
    visible st' = visible st.

End useFetch.

Arguments State : clear implicits.
Arguments Event : clear implicits.
Arguments Failure : clear implicits.
Arguments Outcome : clear implicits.
Arguments staleness_guard : clear implicits.

(** The scenario of the specification: descriptor A starts a slow call,
    descriptor B a fast one; B's payload arrives first, A's last. *)
Definition slow_A_fast_B : list (Event string) :=
  [Trigger Mount; Trigger DescriptorChange;
   FetchResolved 1 true 200; JsonResolved 1 (Some "B");
   FetchResolved 0 true 200].

End Fetch.

(** ** useThrottle (src/hooks/useThrottle.ts) *)

Module Throttle.

Section useThrottle.
Context {F A : Type}.   (* the functions passed as [func]; argument tuples *)

(** A pending [setTimeout]: when it is due, and the [func] and [args] its
    callback closed over. *)
Record Timer := mkTimer { due : Z; tfunc : F; targs : A }.

(** One actual invocation [func(...args)]. *)
Record Call := mkCall { at_time : Z; callee : F; args : A }.

(** The two refs of the hook, the runtime's timer table, and the log of
    invocations of [func]. The hook keeps no React state and registers no
    effect. *)
Record State := mkState {
  lastExecuted : Z;                 (* [useRef<number>(0)] *)
  timeoutId : option positive;      (* [useRef(undefined)] *)
  timers : gmap positive Timer;
  nextId : positive;
  invoked : list Call;
  mounted : bool
}.

Definition init : State := mkState 0 None ∅ 1%positive [] true.

(** [if (timeoutId.current) clearTimeout(timeoutId.current)]; a handle is
    a positive number, hence truthy. *)
Definition clear_existing (st : State) : gmap positive Timer :=
  match timeoutId st with
  | Some id => delete id (timers st)
  | None => timers st
  end.

(** The function the hook returns, called with [args] when [Date.now()]
    is [now]; [func] and [delay] are those of the render that produced
    this closure. *)
Definition throttled (func : F) (delay : Z) (args : A) (now : Z)
    (st : State) : State :=
  if Z.leb delay (now - lastExecuted st)
  then
    mkState now (timeoutId st) (timers st) (nextId st)
            (invoked st ++ [mkCall now func args]) (mounted st)
  else
    let remainingDelay := delay - (now - lastExecuted st) in
    let id := nextId st in
    mkState (lastExecuted st) (Some id)
            (<[id := mkTimer (now + remainingDelay) func args]>
               (clear_existing st))
            (Pos.succ id) (invoked st) (mounted st).

(** The timeout callback, run by the event loop when [Date.now()] is
    [now]: [func(...args); lastExecuted.current = Date.now()]. A timer
    never runs before it is due, and runs once. *)
Definition fire (id : positive) (now : Z) (st : State) : option State :=
  match timers st !! id with
  | Some t =>
      if Z.leb (due t) now
      then Some (mkState now (timeoutId st) (delete id (timers st))
                         (nextId st)
                         (invoked st ++ [mkCall now (tfunc t) (targs t)])
                         (mounted st))
      else None
  | None => None
  end.

(** Unmounting: the hook has no effect, so React has no cleanup to run
    and the timer table and the refs stay as they are. *)
Definition unmount (st : State) : State :=
  mkState (lastExecuted st) (timeoutId st) (timers st) (nextId st)
          (invoked st) false.

Inductive Event :=
| Invoke (func : F) (delay : Z) (args : A)
| Fire (id : positive)
| Unmount.

Definition step (now : Z) (ev : Event) (st : State) : option State :=
  match ev with
  | Invoke func delay args => Some (throttled func delay args now st)
  | Fire id => fire id now st
  | Unmount => Some (unmount st)
  end.

Fixpoint run (evs : list (Z * Event)) (st : State) : option State :=
  match evs with
  | [] => Some st
  | (now, ev) :: evs => st' ← step now ev st; run evs st'
  end.

(** Successive calls of the same closure. *)
Fixpoint calls (func : F) (delay : Z) (cs : list (Z * A)) (st : State)
    : State :=
  match cs with
  | [] => st
  | (now, a) :: cs => calls func delay cs (throttled func delay a now st)
  end.

(** At most one timer is pending, and [timeoutId] holds its handle. *)
Definition one_timer (st : State) : Prop :=
  ∀ id t, timers st !! id = Some t → timeoutId st = Some id.

(** [lastExecuted] is the time of the last actual invocation. *)
Definition stamp_is_last (st : State) : Prop :=
  ∀ c, last (invoked st) = Some c → lastExecuted st = at_time c.

(** Detach safety as the specification states it: once unmounted, no
    timer callback runs. *)
Definition detach_safe : Prop :=
  ∀ evs st id now,
    run evs init = Some st →
    mounted st = false →
    fire id now st = None.






(** A closure called at the given times with the given arguments. *)
Definition calls_made (func : F) (cs : list (Z * A)) : list Call :=
  (λ call, mkCall call.1 func call.2) <$> cs.

(** The times of successive calls do not decrease, starting from [t]. *)
Fixpoint chronological (t : Z) (cs : list (Z * A)) : Prop :=
  match cs with
  | [] => True
  | (now, _) :: cs => t ≤ now ∧ chronological now cs
  end.

End useThrottle.

Arguments State : clear implicits.
Arguments Event : clear implicits.
Arguments Timer : clear implicits.
Arguments Call : clear implicits.
Arguments detach_safe : clear implicits.

End Throttle.

(** ** useInterval (src/hooks/useInterval.ts) *)

Module Interval.

(** A registered [setInterval]: its period and when it next fires. *)
Record Timer := mkTimer { period : Z; nextDue : Z }.

Section useInterval.
Context {F : Type} `{EqDecision F}.   (* the functions passed as [callback] *)

(** [savedCallback = None] is the initial [() => {}] of the ref.
    [callbackDep] and [delayDep] are the dependency arrays of the two
    effects at the last commit ([None] before the first one); [cleanup]
    is the handle captured by the cleanup the second effect returned. *)
Record State := mkState {
  savedCallback : option F;
  callbackDep : option F;
  delayDep : option (option Z);
  cleanup : option positive;
  timers : gmap positive Timer;
  nextId : positive;
  invoked : list (Z * F);
  mounted : bool
}.

Definition init : State := mkState None None None None ∅ 1%positive [] true.

(** [() => clearInterval(id)], when the effect returned one. *)
Definition run_cleanup (st : State) : gmap positive Timer :=
  match cleanup st with
  | Some id => delete id (timers st)
  | None => timers st
  end.

(** First effect, dependencies [[callback]]:
    [savedCallback.current = callback]. *)
Definition remember (callback : F) (st : State) : State :=
  if decide (callbackDep st = Some callback) then st
  else mkState (Some callback) (Some callback) (delayDep st) (cleanup st)
               (timers st) (nextId st) (invoked st) (mounted st).

(** Second effect, dependencies [[delay]]: the previous cleanup runs,
    then [if (delay === null) return] or [setInterval(..., delay)]. *)
Definition schedule (delay : option Z) (now : Z) (st : State) : State :=
  if decide (delayDep st = Some delay) then st
  else
    match delay with
    | None =>
        mkState (savedCallback st) (callbackDep st) (Some None) None
                (run_cleanup st) (nextId st) (invoked st) (mounted st)
    | Some d =>
        let id := nextId st in
        mkState (savedCallback st) (callbackDep st) (Some (Some d))
                (Some id)
                (<[id := mkTimer d (now + d)]> (run_cleanup st))
                (Pos.succ id) (invoked st) (mounted st)
    end.

(** A render of [useInterval(callback, delay)] and its commit. *)
Definition render (callback : F) (delay : option Z) (now : Z)
    (st : State) : State :=
  schedule delay now (remember callback st).

(** The interval callback [() => savedCallback.current?.()], run when
    [Date.now()] is [now]; the timer stays registered and is due again
    one period later. *)
Definition tick (id : positive) (now : Z) (st : State) : option State :=
  match timers st !! id with
  | Some t =>
      if Z.leb (nextDue t) now
      then Some (mkState (savedCallback st) (callbackDep st) (delayDep st)
                   (cleanup st)
                   (<[id := mkTimer (period t) (nextDue t + period t)]>
                      (timers st))
                   (nextId st)
                   (match savedCallback st with
                    | Some f => invoked st ++ [(now, f)]
                    | None => invoked st
                    end)
                   (mounted st))
      else None
  | None => None
  end.

(** Unmounting runs the cleanup of the second effect. *)
Definition unmount (st : State) : State :=
  mkState (savedCallback st) (callbackDep st) (delayDep st) None
          (run_cleanup st) (nextId st) (invoked st) false.

Inductive Event :=
| Render (callback : F) (delay : option Z)
| Tick (id : positive)
| Unmount.

Definition step (now : Z) (ev : Event) (st : State) : option State :=
  match ev with
  | Render callback delay =>
      if mounted st then Some (render callback delay now st) else None
  | Tick id => tick id now st
  | Unmount => if mounted st then Some (unmount st) else None
  end.

Fixpoint run (evs : list (Z * Event)) (st : State) : option State :=
  match evs with
  | [] => Some st
  | (now, ev) :: evs => st' ← step now ev st; run evs st'
  end.

(** What holds of the states the hook reaches: the ref holds the callback
    of the last commit; a registered timer is the one the cleanup will
    clear; a timer is registered only after a callback was saved; and while
    the hook is mounted with a non-null period, a timer of that period is
    registered. *)
Definition consistent (st : State) : Prop :=
  callbackDep st = savedCallback st ∧
  (∀ id t, timers st !! id = Some t → cleanup st = Some id) ∧
  (is_Some (cleanup st) → is_Some (savedCallback st)) ∧
  (mounted st = true → ∀ d, delayDep st = Some (Some d) →
     ∃ id t, cleanup st = Some id ∧ timers st !! id = Some t ∧ period t = d).

(** The callback of the last render of a history. *)
Fixpoint latest_callback (evs : list (Z * Event)) (acc : option F)
    : option F :=
  match evs with
  | [] => acc
  | (_, Render callback _) :: evs => latest_callback evs (Some callback)
  | _ :: evs => latest_callback evs acc
  end.

End useInterval.

Arguments State : clear implicits.
Arguments Event : clear implicits.

End Interval.

(** ** useDebounce (src/hooks/useDebounce.ts is not part of the sources;
       only its test file is) *)

Module Debounce.

Section useDebounce.
Context {T : Type} `{EqDecision T}.

(** Modelled from the spec: the timer a [PacedValue] arms (the body of
    [useDebounce] is missing); it carries the input that was current
    when it was armed. *)
Record Timer := mkTimer { due : Z; value : T }.

(** Modelled from the spec: [PacedValue<T>] of section 3 (the state of
    the missing [useDebounce]): the last published value, the input seen
    at the previous tick, and the handle of the pending timer. *)
Record State := mkState {
  currentOutput : T;
  seenInput : T;
  pendingTimer : option positive;
  timers : gmap positive Timer;
  nextId : positive;
  published : list (Z * T);
  attached : bool
}.

(** Modelled from the spec: the first tick of the missing [useDebounce],
    "output equals input immediately (no delay)". *)
Definition attach (input : T) : State :=
  mkState input input None ∅ 1%positive [] true.

(** Modelled from the spec: "cancel any pending timer" of the missing
    [useDebounce]. *)
Definition cancel_pending (st : State) : gmap positive Timer :=
  match pendingTimer st with
  | Some id => delete id (timers st)
  | None => timers st
  end.

(** Modelled from the spec: a later tick of the missing [useDebounce].
    When the input differs from the previously seen one, the pending
    timer is cancelled and a new one armed for [delayMs] (500 when
    unspecified); the output is left alone. *)
Definition observe (input : T) (delayMs : option Z) (now : Z)
    (st : State) : State :=
  if decide (input = seenInput st) then st
  else
    let id := nextId st in
    mkState (currentOutput st) input (Some id)
            (<[id := mkTimer (now + default 500 delayMs) input]>
               (cancel_pending st))
            (Pos.succ id) (published st) (attached st).

(** Modelled from the spec: the timer of the missing [useDebounce]
    firing without having been cancelled, "output becomes the input
    value that was current at the moment the timer was (re)armed". *)
Definition fire (id : positive) (now : Z) (st : State) : option State :=
  match timers st !! id with
  | Some t =>
      if Z.leb (due t) now
      then Some (mkState (value t) (seenInput st) None
                         (delete id (timers st)) (nextId st)
                         (published st ++ [(now, value t)]) (attached st))
      else None
  | None => None
  end.

(** Modelled from the spec: detach of the missing [useDebounce],
    "cancel pending timer; no late publish occurs after detach". *)
Definition detach (st : State) : State :=
  mkState (currentOutput st) (seenInput st) None (cancel_pending st)
          (nextId st) (published st) false.

(** Modelled from the spec: what drives the missing [useDebounce], "a new
    input arriving, a timer firing, or the consumer tearing down". *)
Inductive Event :=
| Observe (input : T) (delayMs : option Z)
| Fire (id : positive)
| Detach.

(** Modelled from the spec: one transition of the missing [useDebounce];
    after detach it is observed no more. *)
Definition step (now : Z) (ev : Event) (st : State) : option State :=
  match ev with
  | Observe input delayMs =>
      if attached st then Some (observe input delayMs now st) else None
  | Fire id => fire id now st
  | Detach => if attached st then Some (detach st) else None
  end.

Fixpoint run (evs : list (Z * Event)) (st : State) : option State :=
  match evs with
  | [] => Some st
  | (now, ev) :: evs => st' ← step now ev st; run evs st'
  end.

(** Modelled from the spec: the timer service of the missing
    [useDebounce] is exact ("assumed infallible"): letting time pass up to
    [now] fires the pending timer at the moment it is due, if that moment
    has come. *)
Definition advance (now : Z) (st : State) : State :=
  match pendingTimer st with
  | Some id =>
      match timers st !! id with
      | Some t =>
          if Z.leb (due t) now then default st (fire id (due t) st) else st
      | None => st
      end
  | None => st
  end.

(** Modelled from the spec: input changes reaching the missing
    [useDebounce] at the given times, with time passing in between. *)
Fixpoint burst (delayMs : option Z) (changes : list (Z * T))
    (st : State) : State :=
  match changes with
  | [] => st
  | (now, v) :: changes =>
      burst delayMs changes (observe v delayMs now (advance now st))
  end.

(** Every change differs from the input before it and comes less than
    [d] after the previous change (at time [t], with input [v]). *)
Fixpoint rapid (d : Z) (t : Z) (v : T) (changes : list (Z * T)) : Prop :=
  match changes with
  | [] => True
  | (t', v') :: changes => v' ≠ v ∧ t' - t < d ∧ rapid d t' v' changes
  end.

(** The last change of a burst that begins with the change [(t, v)]. *)
Definition final_change (t : Z) (v : T) (changes : list (Z * T)) : Z * T :=
  default (t, v) (last changes).

(** At most one timer is pending, and [pendingTimer] holds its handle. *)
Definition one_pending (st : State) : Prop :=
  ∀ id t, timers st !! id = Some t → pendingTimer st = Some id.

(** The only pending timer was armed at time [t], for [d], with input [v],
    and [v] is the input last seen. *)
Definition armed (t : Z) (v : T) (d : Z) (st : State) : Prop :=
  ∃ id, pendingTimer st = Some id ∧
        timers st = {[ id := mkTimer (t + d) v ]} ∧
        seenInput st = v.

End useDebounce.

Arguments State : clear implicits.
Arguments Event : clear implicits.
Arguments Timer : clear implicits.

End Debounce.

(** ** useToggle (src/hooks/useToggle.ts) *)

Module Toggle.

(** The two forms of a call of a [useState] setter: a value, or an updater
    that React applies to the state as it is when the update is processed. *)
Inductive Update :=
| SetTo (v : bool)
| SetWith (f : bool → bool).

(** The committed state and the updates queued since the last render. *)
Record State := mkState { value : bool; queue : list Update }.

(** [useState<boolean>(initialValue)], with [initialValue = false] when the
    argument is left out. *)
Definition useToggle (initialValue : option bool) : State :=
  mkState (default false initialValue) [].

Definition setValue (u : Update) (st : State) : State :=
  mkState (value st) (queue st ++ [u]).

(** [setValue(prev => !prev)], [setValue(true)], [setValue(false)] *)
Definition toggle : State → State := setValue (SetWith negb).
Definition setTrue : State → State := setValue (SetTo true).
Definition setFalse : State → State := setValue (SetTo false).

Definition apply_update (v : bool) (u : Update) : bool :=
  match u with
  | SetTo v' => v'
  | SetWith f => f v
  end.

(** The next render processes the queue in order. *)
Definition render (st : State) : State :=
  mkState (fold_left apply_update (queue st) (value st)) [].

Inductive Event := CallToggle | CallSetTrue | CallSetFalse | Render.

Definition step (st : State) (ev : Event) : State :=
  match ev with
  | CallToggle => toggle st
  | CallSetTrue => setTrue st
  | CallSetFalse => setFalse st
  | Render => render st
  end.

Definition run (evs : list Event) (st : State) : State :=
  fold_left step evs st.

(** What one call does to the value, renders aside. *)
Definition effect_of (v : bool) (ev : Event) : bool :=
  match ev with
  | CallToggle => negb v
  | CallSetTrue => true
  | CallSetFalse => false
  | Render => v
  end.

(** The value the consumer reads at the next render. *)
Definition observed (st : State) : bool := value (render st).

End Toggle.

(** ** usePrevious (src/hooks/usePrevious.ts) *)

Module Previous.

Section usePrevious.
Context {T : Type}.

(** [useRef<T | undefined>(undefined)]; [None] is [undefined]. *)
Record State := mkState { ref : option T }.

Definition init : State := mkState None.

(** One render and its effect: the hook returns [ref.current] as it is
    during the render; the effect, which has no dependency array and so
    runs after every render, then stores [value]. *)
Definition render (value : T) (st : State) : option T * State :=
  (ref st, mkState (Some value)).

(** What successive renders return. *)
Fixpoint renders (values : list T) (st : State) : list (option T) :=
  match values with
  | [] => []
  | value :: values =>
      (render value st).1 :: renders values (render value st).2
  end.

End usePrevious.

Arguments State : clear implicits.

End Previous.

(** ** useWindowSize (src/hooks/useWindowSize.ts) *)

Module WindowSize.

Record Size := mkSize { width : Z; height : Z }.

Inductive Phase := Rendered | Mounted | Unmounted.

(** The [useState] cell, where the component is in its life, the
    browser's [window.innerWidth]/[innerHeight] ([None]: there is no
    [window]), and whether [handleResize] is registered for 'resize'. *)
Record State := mkState {
  windowSize : Size;
  phase : Phase;
  inner : option Size;
  listening : bool
}.

(** The first render: the lazy initial state. *)
Definition first_render (inner : option Size) : State :=
  mkState (default (mkSize 0 0) inner) Rendered inner false.

Definition setWindowSize (sz : Size) (st : State) : State :=
  match phase st with
  | Unmounted => st
  | _ => mkState sz (phase st) (inner st) (listening st)
  end.

(** [handleResize]: reads the window when it runs. *)
Definition handleResize (st : State) : State :=
  match inner st with
  | Some sz => setWindowSize sz st
  | None => st
  end.

(** The mount effect: nothing without a [window]; otherwise register the
    listener and call the handler right away. *)
Definition effect (st : State) : State :=
  match inner st with
  | None => mkState (windowSize st) Mounted (inner st) (listening st)
  | Some _ =>
      handleResize (mkState (windowSize st) Mounted (inner st) true)
  end.

(** The browser resizes the window and dispatches 'resize'. *)
Definition resize (sz : Size) (st : State) : option State :=
  match inner st with
  | None => None
  | Some _ =>
      let st := mkState (windowSize st) (phase st) (Some sz) (listening st) in
      Some (if listening st then handleResize st else st)
  end.

(** The cleanup: [removeEventListener('resize', handleResize)], returned
    only when the effect registered the listener. *)
Definition unmount (st : State) : State :=
  mkState (windowSize st) Unmounted (inner st) false.

Inductive Event := Effect | Resize (sz : Size) | Rerender | Unmount.

Definition step (ev : Event) (st : State) : option State :=
  match ev, phase st with
  | Effect, Rendered => Some (effect st)
  | Resize sz, _ => resize sz st
  | Rerender, Mounted => Some st
  | Unmount, Mounted => Some (unmount st)
  | _, _ => None
  end.

Fixpoint run (evs : list Event) (st : State) : option State :=
  match evs with
  | [] => Some st
  | ev :: evs => st' ← step ev st; run evs st'
  end.

End WindowSize.

(** ** useMediaQuery (src/hooks/useMediaQuery.ts) *)

Module MediaQuery.

(** The [useState] cell; the dependency of the effect at the last commit;
    the query whose [MediaQueryList] the pending cleanup will unsubscribe
    from; the 'change' listeners this hook has registered, each under the
    query of its list; how the browser currently evaluates each query (a
    query not in the table does not match); whether there is a [window];
    whether the component is mounted; and what the successive renders of
    the hook have returned to the consumer. *)
Record State := mkState {
  matches : bool;
  queryDep : option string;
  subscribed : option string;
  listeners : list string;
  media : gmap string bool;
  window : bool;
  mounted : bool;
  returned : list bool
}.

(** [window.matchMedia(query).matches] *)
Definition evaluate (media : gmap string bool) (query : string) : bool :=
  default false (media !! query).

(** A render: [return matches], the state as it is at that moment. *)
Definition returns (st : State) : State :=
  mkState (matches st) (queryDep st) (subscribed st) (listeners st)
          (media st) (window st) (mounted st) (returned st ++ [matches st]).

(** [setMatches(b)]: a state that changes makes React render the hook
    again, which then returns the new state; an unchanged state does not;
    an unmounted component takes no update. *)
Definition setMatches (b : bool) (st : State) : State :=
  if mounted st
  then
    if bool_decide (b = matches st) then st
    else returns (mkState b (queryDep st) (subscribed st) (listeners st)
                          (media st) (window st) (mounted st) (returned st))
  else st.

(** Removes one registration under [query], if there is one. *)
Fixpoint remove_listener (query : string) (ls : list string) : list string :=
  match ls with
  | [] => []
  | q :: ls => if decide (q = query) then ls else q :: remove_listener query ls
  end.

(** The cleanup the effect returned, if it returned one. *)
Definition run_cleanup (st : State) : State :=
  match subscribed st with
  | Some q =>
      mkState (matches st) (queryDep st) None (remove_listener q (listeners st))
              (media st) (window st) (mounted st) (returned st)
  | None => st
  end.

(** The effect, dependencies [[query]]: the previous cleanup, then
    [setMatches(mediaQuery.matches)] and [addEventListener('change', ...)],
    or nothing at all without a [window]. *)
Definition subscribe (query : string) (st : State) : State :=
  if decide (queryDep st = Some query) then st
  else
    let st := run_cleanup st in
    let st := mkState (matches st) (Some query) (subscribed st) (listeners st)
                      (media st) (window st) (mounted st) (returned st) in
    if window st
    then
      let st := setMatches (evaluate (media st) query) st in
      mkState (matches st) (queryDep st) (Some query)
              (query :: listeners st) (media st) (window st) (mounted st)
              (returned st)
    else st.

(** A render of [useMediaQuery(query)] and its commit: the hook first
    returns the state it has, computed for the query of the render before,
    and only then does the effect look at the new query. *)
Definition render (query : string) (st : State) : State :=
  subscribe query (returns st).

(** The first render, with its lazy initial state, and its effect. *)
Definition mount (query : string) (media : gmap string bool) (window : bool)
    : State :=
  render query
    (mkState (if window then evaluate media query else false)
             None None [] media window true []).

(** The browser re-evaluates [query] to [b] and dispatches 'change' on its
    lists; every listener registered under it runs
    [setMatches(event.matches)]. *)
Definition change (query : string) (b : bool) (st : State) : State :=
  let st := mkState (matches st) (queryDep st) (subscribed st) (listeners st)
                    (<[query := b]> (media st)) (window st) (mounted st)
                    (returned st) in
  if bool_decide (query ∈ listeners st) then setMatches b st else st.

Definition unmount (st : State) : State :=
  let st := run_cleanup st in
  mkState (matches st) (queryDep st) (subscribed st) (listeners st)
          (media st) (window st) false (returned st).

Inductive Event :=
| Render (query : string)
| Change (query : string) (b : bool)
| Unmount.

Definition step (ev : Event) (st : State) : option State :=
  match ev with
  | Render query => if mounted st then Some (render query st) else None
  | Change query b => if window st then Some (change query b st) else None
  | Unmount => if mounted st then Some (unmount st) else None
  end.

Fixpoint run (evs : list Event) (st : State) : option State :=
  match evs with
  | [] => Some st
  | ev :: evs => st' ← step ev st; run evs st'
  end.

(** The query of the last render of a history that began with [query]. *)
Fixpoint latest_query (evs : list Event) (query : string) : string :=
  match evs with
  | [] => query
  | Render query' :: evs => latest_query evs query'
  | _ :: evs => latest_query evs query
  end.

End MediaQuery.

(** ** useOnClickOutside (src/hooks/useOnClickOutside.ts) *)

Module ClickOutside.

Inductive Kind := MouseDown | TouchStart.

Global Instance Kind_eq_dec : EqDecision Kind.
Proof. solve_decision. Defined.

Section useOnClickOutside.
Context {Node H : Type} `{EqDecision H}.

(** [el.contains(other)] of the DOM, [other] possibly [null]. *)
Variable contains : Node → option Node → bool.

(** The closure [listener] one run of the effect creates: it closes over
    [ref] (a ref object, by identity, or [null]) and [handler]. *)
Record Listener := mkListener {
  lid : positive;
  lref : option nat;
  lhandler : H
}.

Global Instance Listener_eq_dec : EqDecision Listener.
Proof. solve_decision. Defined.

(** The dependencies of the effect at the last commit; the listener the
    pending cleanup will remove; the listeners this hook has on [document];
    [ref.current] of every ref object (absent: [null]); the calls of
    handlers. *)
Record State := mkState {
  deps : option (option nat * H);
  cleanup : option Listener;
  registered : list (Kind * Listener);
  current : gmap nat Node;
  nextId : positive;
  invoked : list (H * Kind * option Node);
  mounted : bool
}.

Definition init : State := mkState None None [] ∅ 1%positive [] true.

(** [document.removeEventListener(kind, listener)] *)
Definition removeEventListener (kind : Kind) (l : Listener)
    (ls : list (Kind * Listener)) : list (Kind * Listener) :=
  filter (λ e, e ≠ (kind, l)) ls.

(** The cleanup: both registrations of the listener are removed. *)
Definition run_cleanup (st : State) : list (Kind * Listener) :=
  match cleanup st with
  | Some l =>
      removeEventListener TouchStart l
        (removeEventListener MouseDown l (registered st))
  | None => registered st
  end.

(** The effect, dependencies [[ref, handler]]. *)
Definition render (ref : option nat) (handler : H) (st : State) : State :=
  if decide (deps st = Some (ref, handler)) then st
  else
    let l := mkListener (nextId st) ref handler in
    mkState (Some (ref, handler)) (Some l)
            (run_cleanup st ++ [(MouseDown, l); (TouchStart, l)])
            (current st) (Pos.succ (nextId st)) (invoked st) (mounted st).

(** The body of [listener], run for an event of the given kind whose
    target is [target] ([None]: no target). *)
Definition listener (l : Listener) (kind : Kind) (target : option Node)
    (st : State) : State :=
  match lref l ≫= λ r, current st !! r with
  | None => st
  | Some el =>
      if contains el target then st
      else mkState (deps st) (cleanup st) (registered st) (current st)
                   (nextId st)
                   (invoked st ++ [(lhandler l, kind, target)]) (mounted st)
  end.

(** [document] dispatches an event to the listeners of its kind. *)
Definition dispatch (kind : Kind) (target : option Node) (st : State)
    : State :=
  fold_left (λ st e, if decide (e.1 = kind) then listener e.2 kind target st
                     else st)
            (registered st) st.

(** The consumer (or React) assigns [ref.current]. *)
Definition assign (r : nat) (el : option Node) (st : State) : State :=
  mkState (deps st) (cleanup st) (registered st)
          (match el with
           | Some el => <[r := el]> (current st)
           | None => delete r (current st)
           end)
          (nextId st) (invoked st) (mounted st).

Definition unmount (st : State) : State :=
  mkState (deps st) None (run_cleanup st) (current st) (nextId st)
          (invoked st) false.

Inductive Event :=
| Render (ref : option nat) (handler : H)
| Assign (r : nat) (el : option Node)
| Dispatch (kind : Kind) (target : option Node)
| Unmount.

Definition step (ev : Event) (st : State) : option State :=
  match ev with
  | Render ref handler =>
      if mounted st then Some (render ref handler st) else None
  | Assign r el => Some (assign r el st)
  | Dispatch kind target => Some (dispatch kind target st)
  | Unmount => if mounted st then Some (unmount st) else None
  end.

Fixpoint run (evs : list Event) (st : State) : option State :=
  match evs with
  | [] => Some st
  | ev :: evs => st' ← step ev st; run evs st'
  end.

(** What holds of the states the hook reaches. *)
Definition subscribed_once (st : State) : Prop :=
  match cleanup st with
  | Some l =>
      registered st = [(MouseDown, l); (TouchStart, l)] ∧
      deps st = Some (lref l, lhandler l) ∧ mounted st = true
  | None => registered st = []
  end.

End useOnClickOutside.

Arguments State : clear implicits.
Arguments Event : clear implicits.
Arguments Listener : clear implicits.

(** A page whose elements have no children: an element contains only
    itself. *)
Definition flat_contains (el : nat) (target : option nat) : bool :=
  match target with
  | Some t => bool_decide (el = t)
  | None => false
  end.

End ClickOutside.

(** ** useDownloadFile (src/hooks/useDownloadFile.ts) *)

Module Download.

(** Children of [document.body]: nodes that were there before, and the
    [<a>] elements [downloadFile] creates. *)
Inductive NodeId := Foreign (n : nat) | Anchor (n : nat).

Global Instance NodeId_eq_dec : EqDecision NodeId.
Proof. solve_decision. Defined.

(** The closure passed to [setTimeout(..., 100)]. *)
Record Cleanup := mkCleanup { due : Z; link : nat; url : nat }.

Section useDownloadFile.
Context {Blob : Type}.

(** The [useState] cell; the children of [document.body]; the object URLs
    that are alive, with their blobs; the pending timers; the counters
    behind [createElement], [createObjectURL] and [setTimeout]; the
    downloads [link.click()] has started (URL and file name); the errors
    written by [console.log]. *)
Record State := mkState {
  isLoading : bool;
  body : list NodeId;
  urls : gmap nat Blob;
  timers : gmap positive Cleanup;
  nextAnchor : nat;
  nextUrl : nat;
  nextTimer : positive;
  clicked : list (nat * string);
  logged : nat
}.

(** The page before the hook has done anything, with some children of
    its own in [document.body]. *)
Definition init (body : list nat) : State :=
  mkState false (Foreign <$> body) ∅ ∅ 0 0 1%positive [] 0.

(** [downloadFile({ data, fileName = 'file' })] at time [now]. The body has
    no [await]: it runs to its end in one go. [throws]: whether
    [createObjectURL] throws, which leads to the [catch]; a throw at a
    later statement of the [try] block is [interrupted], below. *)
Definition downloadFile (data : Blob) (fileName : option string)
    (throws : bool) (now : Z) (st : State) : State :=
  if throws
  then mkState false (body st) (urls st) (timers st) (nextAnchor st)
               (nextUrl st) (nextTimer st) (clicked st) (S (logged st))
  else
    let u := nextUrl st in
    let a := nextAnchor st in
    mkState false (body st ++ [Anchor a]) (<[u := data]> (urls st))
            (<[nextTimer st := mkCleanup (now + 100) a u]> (timers st))
            (S a) (S u) (Pos.succ (nextTimer st))
            (clicked st ++ [(u, default "file" fileName)]) (logged st).

(** The statement of the [try] block, after [createObjectURL], at which an
    exception is thrown. *)
Inductive Interruption :=
| AtCreateElement   (* [document.createElement('a')] *)
| AtSetHref         (* [link.href = url] *)
| AtSetAttribute    (* [link.setAttribute('download', fileName)] *)
| AtAppendChild     (* [document.body.appendChild(link)] *)
| AtClick           (* [link.click()] *)
| AtSetTimeout.     (* [setTimeout(..., 100)] *)

(** What had been done when the exception was thrown. *)
Definition created (at_ : Interruption) : bool :=
  match at_ with AtCreateElement => false | _ => true end.

Definition appended (at_ : Interruption) : bool :=
  match at_ with AtClick | AtSetTimeout => true | _ => false end.

Definition was_clicked (at_ : Interruption) : bool :=
  match at_ with AtSetTimeout => true | _ => false end.

(** [downloadFile] when a statement after [createObjectURL] throws: the
    statements before it have run, [catch] logs the error, no timeout is
    armed, and [setIsLoading(false)] follows. *)
Definition interrupted (data : Blob) (fileName : option string)
    (at_ : Interruption) (st : State) : State :=
  let u := nextUrl st in
  let a := nextAnchor st in
  mkState false
          (if appended at_ then body st ++ [Anchor a] else body st)
          (<[u := data]> (urls st)) (timers st)
          (if created at_ then S a else a) (S u) (nextTimer st)
          (if was_clicked at_
           then clicked st ++ [(u, default "file" fileName)]
           else clicked st)
          (S (logged st)).

(** The timeout callback: [if (document.body.contains(link))
    document.body.removeChild(link); URL.revokeObjectURL(url)]. *)
Definition fire (id : positive) (now : Z) (st : State) : option State :=
  match timers st !! id with
  | Some c =>
      if Z.leb (due c) now
      then Some (mkState (isLoading st)
                   (filter (λ n, n ≠ Anchor (link c)) (body st))
                   (delete (url c) (urls st))
                   (delete id (timers st))
                   (nextAnchor st) (nextUrl st) (nextTimer st)
                   (clicked st) (logged st))
      else None
  | None => None
  end.

(** Other code removes a child of [document.body]. *)
Definition removeChild (n : NodeId) (st : State) : State :=
  mkState (isLoading st) (filter (λ m, m ≠ n) (body st)) (urls st)
          (timers st) (nextAnchor st) (nextUrl st) (nextTimer st)
          (clicked st) (logged st).

Inductive Event :=
| Download (data : Blob) (fileName : option string) (throws : bool)
| Interrupted (data : Blob) (fileName : option string) (at_ : Interruption)
| Fire (id : positive)
| RemoveChild (n : NodeId).

Definition step (now : Z) (ev : Event) (st : State) : option State :=
  match ev with
  | Download data fileName throws =>
      Some (downloadFile data fileName throws now st)
  | Interrupted data fileName at_ => Some (interrupted data fileName at_ st)
  | Fire id => fire id now st
  | RemoveChild n => Some (removeChild n st)
  end.

Fixpoint run (evs : list (Z * Event)) (st : State) : option State :=
  match evs with
  | [] => Some st
  | (now, ev) :: evs => st' ← step now ev st; run evs st'
  end.

(** Histories in which no statement after [createObjectURL] throws. *)
Definition uninterrupted (evs : list (Z * Event)) : bool :=
  forallb (λ e, match e.2 with Interrupted _ _ _ => false | _ => true end)
          evs.

(** The counters are ahead of everything handed out. *)
Definition fresh (st : State) : Prop :=
  (∀ a, Anchor a ∈ body st → (a < nextAnchor st)%nat) ∧
  (∀ u, is_Some (urls st !! u) → (u < nextUrl st)%nat) ∧
  (∀ id c, timers st !! id = Some c →
           (link c < nextAnchor st)%nat ∧ (url c < nextUrl st)%nat ∧
           (id < nextTimer st)%positive).

(** Everything [downloadFile] has put in place has a pending timer that
    will take it away. *)
Definition accounted (st : State) : Prop :=
  (∀ u, is_Some (urls st !! u) →
        ∃ id c, timers st !! id = Some c ∧ url c = u) ∧
  (∀ a, Anchor a ∈ body st →
        ∃ id c, timers st !! id = Some c ∧ link c = a) ∧
  (∀ id c, timers st !! id = Some c →
           (link c < nextAnchor st)%nat ∧ (url c < nextUrl st)%nat ∧
           (id < nextTimer st)%positive).

End useDownloadFile.

Arguments State : clear implicits.
Arguments Event : clear implicits.

End Download.

(** * Properties *)

(** ** useFetch *)

Section FetchProperties.
Context {T : Type}.
Import Fetch.

Implicit Types (st : State T) (ev : Event T) (evs : list (Event T)).

(** Unfolds the handlers on a state given by its fields. *)
Local Ltac by_fields st :=
  destruct st as [? ? ? [] ? ?];
  unfold fetchData_start, settle_failure, settle_success, set_pending,
    setData, setError, setLoading, visible in *;
  simpl in *; try done.

(** A call that starts does not touch [data]; it clears [error] and
    raises [loading]. *)
Lemma fetchData_start_visible st :
  mounted st = true →
  visible (fetchData_start st) = (data st, true, None).
Proof. by_fields st. Qed.

Lemma fetchData_start_fields st :
  mounted st = true →
  data (fetchData_start st) = data st ∧ error (fetchData_start st) = None.
Proof. by_fields st. Qed.

Lemma fetchData_start_mounted st :
  mounted (fetchData_start st) = mounted st.
Proof. by_fields st. Qed.

Lemma fetchData_start_pending st :
  pending (fetchData_start st) !! issued st = Some AwaitFetch.
Proof. by_fields st; by rewrite lookup_insert_eq. Qed.

Lemma settle_failure_visible op e st :
  mounted st = true →
  visible (settle_failure op e st) = (data st, false, Some e).
Proof. by_fields st. Qed.

Lemma settle_success_visible op v st :
  mounted st = true →
  visible (settle_success op v st) = (v, false, error st).
Proof. by_fields st. Qed.

Lemma settle_failure_mounted op e st :
  mounted (settle_failure op e st) = mounted st.
Proof. by_fields st. Qed.

Lemma settle_success_mounted op v st :
  mounted (settle_success op v st) = mounted st.
Proof. by_fields st. Qed.

(** Every failure takes the same path through [catch] and [finally]. *)
Lemma step_failure op (f : Failure) st :
  pending st !! op = Some (failure_stage f) →
  step (failure_event op f) st = Some (settle_failure op (failure_error f) st).
Proof. destruct f; simpl; intros ->; done. Qed.

Lemma run_cons ev evs st : run (ev :: evs) st = step ev st ≫= run evs.
Proof. done. Qed.

Lemma bind_Some_eq st (k : State T → option (State T)) : Some st ≫= k = k st.
Proof. done. Qed.

Lemma step_fetch_ok op status st :
  pending st !! op = Some AwaitFetch →
  step (FetchResolved op true status) st
  = Some (set_pending (<[op := AwaitJson]> (pending st)) st).
Proof. simpl. by intros ->. Qed.

Lemma step_json_ok op result st :
  pending st !! op = Some AwaitJson →
  step (JsonResolved op result) st = Some (settle_success op result st).
Proof. simpl. by intros ->. Qed.

(** A call that runs from its first [await] to its end with nothing in
    between writes its own result. *)
Lemma run_completes st op (o : Outcome T) :
  mounted st = true →
  pending st !! op = Some AwaitFetch →
  ∃ st', run (completes op o) st = Some st' ∧
         visible st' = match o with
                       | Succeeds result => (result, false, error st)
                       | Fails f => (data st, false, Some (failure_error f))
                       end.
Proof.
  intros Hm Hp.
  assert (∀ p, pending (set_pending (<[op := AwaitJson]> p) st) !! op
               = Some AwaitJson) as Hj.
  { intros p. unfold set_pending. simpl. apply lookup_insert_eq. }
  destruct o as [result|[r|status|r]]; unfold completes.
  - rewrite run_cons, step_fetch_ok, bind_Some_eq by done.
    rewrite run_cons, step_json_ok, bind_Some_eq by apply Hj.
    eexists. split; [done|]. by rewrite settle_success_visible.
  - rewrite run_cons, (step_failure op (TransportRejects r)) by done.
    eexists. split; [done|]. by rewrite settle_failure_visible.
  - rewrite run_cons, (step_failure op (NotOk status)) by done.
    eexists. split; [done|]. by rewrite settle_failure_visible.
  - rewrite run_cons, step_fetch_ok, bind_Some_eq by done.
    rewrite run_cons, (step_failure op (DecodeRejects r)) by apply Hj.
    eexists. split; [done|]. by rewrite settle_failure_visible.
Qed.

(** Only a decoded payload writes [data]. *)
Lemma step_data ev st st' :
  is_success ev = false → step ev st = Some st' → data st' = data st.
Proof.
  destruct ev as [why|op ok status|op r|op v|op r|]; simpl; try done;
    intros _; try destruct (pending st !! op) as [[]|]; try done;
    try destruct ok; intros [= <-]; by_fields st.
Qed.

Lemma run_data evs st st' :
  forallb (λ ev, negb (is_success ev)) evs = true →
  run evs st = Some st' → data st' = data st.
Proof.
  revert st. induction evs as [|ev evs IH]; intros st; simpl.
  - by intros _ [= <-].
  - intros [Hev Hevs]%andb_prop. apply negb_true_iff in Hev.
    destruct (step ev st) as [st1|] eqn:Hstep; simpl; [|done].
    intros Hrun. rewrite (IH _ Hevs Hrun). by eapply step_data.
Qed.

(** Once the component is unmounted, no handler changes what the hook
    last returned. *)
Lemma step_unmounted ev st st' :
  mounted st = false → step ev st = Some st' →
  visible st' = visible st ∧ mounted st' = false.
Proof.
  intros Hm.
  destruct ev as [why|op ok status|op r|op v|op r|]; simpl;
    try destruct (pending st !! op) as [[]|]; try done;
    try destruct ok; intros [= <-]; by_fields st.
Qed.

(** While the component is mounted, [data] is the payload that was
    decoded last, whichever call it belongs to. *)
Lemma run_last_decoded evs st st' :
  mounted st = true →
  stays_mounted evs = true →
  run evs st = Some st' →
  data st' = last_decoded evs (data st) ∧ mounted st' = true.
Proof.
  revert st. induction evs as [|ev evs IH]; intros st Hm; simpl.
  - by intros _ [= <-].
  - intros [Hev Hevs]%andb_prop.
    destruct (step ev st) as [st1|] eqn:Hstep; simpl; [|done].
    intros Hrun.
    assert (mounted st1 = true ∧
            data st1 = match ev with
                       | JsonResolved _ result => result
                       | _ => data st
                       end) as [Hm1 Hd1].
    { clear Hrun IH.
      destruct ev as [why|op ok status|op r|op v|op r|]; simpl in *;
        try destruct (pending st !! op) as [[]|]; try done;
        try destruct ok; injection Hstep as <-; by_fields st. }
    destruct (IH st1 Hm1 Hevs Hrun) as [-> ->]. split; [|done].
    rewrite Hd1. by destruct ev.
Qed.

(** C10. On its first observation, before anything has settled, the hook
    returns [data = null], [loading = true], [error = null]: the state is
    created loading, and the calls of [fetchData] made before any
    settlement (the one of the mount effect, descriptor changes, manual
    refetches) leave these three values as they are. *)
Theorem useFetch_initial_state (whys : list Cause) :
  visible (@init T) = (None, true, None) ∧
  ∃ st, run (Trigger <$> whys) init = Some st ∧
        visible st = (None, true, None).
Proof.
  split; [done|].
  assert (∀ st, mounted st = true → visible st = (None, true, None) →
            ∃ st', run (Trigger <$> whys) st = Some st' ∧
                   visible st' = (None, true, None)) as Hgen.
  { induction whys as [|why whys' IH]; intros st Hm Hv; simpl.
    - eauto.
    - apply IH.
      + by rewrite fetchData_start_mounted.
      + rewrite fetchData_start_visible by done.
        by injection Hv as -> _ _. }
  by apply Hgen.
Qed.

(** C7. A rejected transport operation, a response that is not ok and a
    payload that fails to decode all end in the same handler, which sets
    [error] to an [Error] and [loading] to false. The [Error] is the
    rejection itself when the rejection is an [Error]; it carries the
    message 'An error occurred' when the rejection is any other value; and
    for a response that is not ok its message is 'HTTP error! status: '
    followed by the status in decimal. Only the message tells the kinds
    apart: the message for a bad status is never the fallback message, and
    it differs from one status to another. *)
Theorem useFetch_failure_normalized st op (f : Failure) :
  mounted st = true →
  pending st !! op = Some (failure_stage f) →
  ∃ st', step (failure_event op f) st = Some st' ∧
         st' = settle_failure op (failure_error f) st ∧
         error st' = Some (failure_error f) ∧
         loading st' = false ∧
         error st'
         = Some match f with
                | NotOk status =>
                    mkError ("HTTP error! status: " +:+ pretty status)
                | TransportRejects (ThrownError e)
                | DecodeRejects (ThrownError e) => e
                | TransportRejects ThrownOther
                | DecodeRejects ThrownOther => mkError "An error occurred"
                end ∧
         match f with
         | NotOk status =>
             ∀ e, error st' = Some e →
                  message e ≠ "" ∧
                  message e ≠ "An error occurred" ∧
                  ∀ status', message e
                             = "HTTP error! status: " +:+ pretty status' →
                             status' = status
         | _ => True
         end.
Proof.
  intros Hm Hp. eexists. split; [by apply step_failure|].
  split; [done|].
  assert (error (settle_failure op (failure_error f) st)
          = Some (failure_error f) ∧
          loading (settle_failure op (failure_error f) st) = false)
    as [He Hl] by (clear Hp; by_fields st).
  split; [done|]. split; [done|]. rewrite He. split.
  - by destruct f as [[e|]|status|[e|]].
  - destruct f as [r|status|r]; try done.
    intros e [= <-]. simpl. split; [done|]. split; [done|].
    intros status' Heq. apply (inj (String.app _)) in Heq.
    by apply (inj pretty) in Heq.
Qed.

(** C9. The failure path never writes [data]: over any stretch of
    handlers that contains no successful decode, [data] is what it was, so
    a call that starts and fails leaves [data] as it found it, setting
    only [error] and [loading]; and a state with both [data] and [error]
    non-null is reached by a success followed by a failed refetch. *)
Theorem useFetch_failure_keeps_data :
  (∀ st why mid (f : Failure) st',
     forallb (λ ev, negb (is_success ev)) mid = true →
     run (Trigger why :: mid ++ [failure_event (issued st) f]) st = Some st' →
     data st' = data st) ∧
  (∀ st op (f : Failure) st',
     mounted st = true →
     step (failure_event op f) st = Some st' →
     visible st' = (data st, false, Some (failure_error f))) ∧
  (∀ v : T, ∃ evs st' e,
     run evs init = Some st' ∧ data st' = Some v ∧ error st' = Some e).
Proof.
  split; [|split].
  - intros st why mid f st' Hmid Hrun.
    apply (run_data (Trigger why :: mid ++ [failure_event (issued st) f]));
      [|done].
    simpl. rewrite forallb_app, Hmid. by destruct f.
  - intros st op f st' Hm Hstep.
    assert (pending st !! op = Some (failure_stage f)) as Hp.
    { destruct f; simpl in *;
        destruct (pending st !! op) as [[]|]; done. }
    rewrite step_failure in Hstep by done. injection Hstep as <-.
    by apply settle_failure_visible.
  - intros v.
    exists [Trigger Mount; FetchResolved 0 true 200; JsonResolved 0 (Some v);
            Trigger Refetch; FetchResolved 1 false 500].
    by eexists _, _.
Qed.

(** C1, as the code has it. [useFetch] has no epoch: a settlement is
    applied when it arrives, whether or not its call has been superseded.
    A decoded payload becomes [data], a failure becomes [error], and both
    lower [loading]. So what is visible follows completion order: it is
    the result of the most recent trigger when that call runs to its end
    with no other settlement in between, and in general [data] is the
    payload that was decoded last. *)
Theorem useFetch_settlement_applied_on_arrival st :
  mounted st = true →
  (∀ op result, pending st !! op = Some AwaitJson →
     ∃ st', step (JsonResolved op result) st = Some st' ∧
            visible st' = (result, false, error st)) ∧
  (∀ op (f : Failure), pending st !! op = Some (failure_stage f) →
     ∃ st', step (failure_event op f) st = Some st' ∧
            visible st' = (data st, false, Some (failure_error f))) ∧
  (∀ why (o : Outcome T),
     ∃ st', run (Trigger why :: completes (issued st) o) st = Some st' ∧
            visible st' = result_of o (data st)) ∧
  (∀ evs st',
     stays_mounted evs = true →
     run evs st = Some st' →
     data st' = last_decoded evs (data st)).
Proof.
  intros Hm. split; [|split; [|split]];
    [| | |intros evs st' Hevs Hrun;
          by destruct (run_last_decoded evs st st' Hm Hevs Hrun)].
  - intros op result Hp. simpl. rewrite Hp. eexists. split; [done|].
    by apply settle_success_visible.
  - intros op f Hp. rewrite step_failure by done. eexists. split; [done|].
    by apply settle_failure_visible.
  - intros why o. rewrite run_cons. simpl (step _ _). rewrite bind_Some_eq.
    destruct (run_completes (fetchData_start st) (issued st) o)
      as (st' & Hrun & Hv).
    + by rewrite fetchData_start_mounted.
    + apply fetchData_start_pending.
    + exists st'. split; [done|]. rewrite Hv.
      destruct (fetchData_start_fields st Hm) as [-> ->]. by destruct o.
Qed.

End FetchProperties.

Example http_error_404 :
  Fetch.message (Fetch.http_error 404) = "HTTP error! status: 404".
Proof. vm_compute. reflexivity. Qed.

Example slow_A_fast_B_final :
  Fetch.visible <$>
    Fetch.run (Fetch.slow_A_fast_B ++ [Fetch.JsonResolved 0 (Some "A")]) Fetch.init
  = Some (Some "A", false, None).
Proof. reflexivity. Qed.

(** C1, as stated, fails: in the scenario above the payload of the
    superseded call A arrives after B's and replaces it, so the settlement
    of a superseded call does change the visible state. *)
Lemma useFetch_stale_settlement_overwrites : ¬ Fetch.staleness_guard string.
Proof.
  intros Hguard.
  destruct (Fetch.run Fetch.slow_A_fast_B Fetch.init) as [st|] eqn:Hrun;
    [|discriminate].
  destruct (Fetch.step (Fetch.JsonResolved 0 (Some "A")) st) as [st'|] eqn:Hstep;
    [|vm_compute in Hrun; injection Hrun as <-; discriminate].
  specialize (Hguard Fetch.slow_A_fast_B st (Fetch.JsonResolved 0 (Some "A")) 0%nat st').
  vm_compute in Hrun. injection Hrun as <-.
  vm_compute in Hstep. injection Hstep as <-.
  specialize (Hguard eq_refl eq_refl).
  assert (1%nat ≠ 2%nat) as Hne by lia.
  specialize (Hguard Hne eq_refl). discriminate.
Qed.

Lemma useFetch_settlement_applied_on_arrival_witness :
  let st := Fetch.fetchData_start (@Fetch.init string) in
  Fetch.mounted st = true ∧
  ∃ st', Fetch.run (Fetch.Trigger Fetch.Refetch
                    :: Fetch.completes (Fetch.issued st)
                         (Fetch.Succeeds (Some "B"))) st = Some st' ∧
         Fetch.visible st' = (Some "B", false, None).
Proof.
  intros st. split; [reflexivity|].
  exact (proj1 (proj2 (proj2
                  (useFetch_settlement_applied_on_arrival st eq_refl)))
           Fetch.Refetch (Fetch.Succeeds (Some "B"))).
Defined.

Lemma useFetch_failure_normalized_witness :
  let st := Fetch.fetchData_start (@Fetch.init string) in
  Fetch.mounted st = true ∧
  Fetch.pending st !! 0%nat = Some Fetch.AwaitFetch ∧
  ∃ st', Fetch.step (Fetch.FetchResolved 0 false 404) st = Some st' ∧
         st' = Fetch.settle_failure 0 (Fetch.http_error 404) st ∧
         Fetch.error st' = Some (Fetch.http_error 404) ∧
         Fetch.loading st' = false ∧
         Fetch.error st' = Some (Fetch.mkError "HTTP error! status: 404") ∧
         ∀ e, Fetch.error st' = Some e →
              Fetch.message e ≠ "" ∧
              Fetch.message e ≠ "An error occurred" ∧
              ∀ status', Fetch.message e
                         = "HTTP error! status: " +:+ pretty status' →
                         status' = 404%nat.
Proof.
  intros st. split; [reflexivity|]. split; [reflexivity|].
  exact (useFetch_failure_normalized st 0%nat (Fetch.NotOk 404)
           eq_refl eq_refl).
Defined.

(** The other two kinds, evaluated: a rejection that is an [Error] keeps
    its message, a rejection that is not gets the fixed one. *)
Example failure_messages :
  (Fetch.message <$>
     (Fetch.run [Fetch.Trigger Fetch.Mount;
                 Fetch.FetchRejected 0
                   (Fetch.ThrownError (Fetch.mkError "Network error"))]
        (@Fetch.init string) ≫= Fetch.error))
  = Some "Network error" ∧
  (Fetch.message <$>
     (Fetch.run [Fetch.Trigger Fetch.Mount; Fetch.FetchResolved 0 true 200;
                 Fetch.JsonRejected 0 Fetch.ThrownOther]
        (@Fetch.init string) ≫= Fetch.error))
  = Some "An error occurred".
Proof. split; reflexivity. Qed.

Lemma useFetch_failure_keeps_data_witness :
  let st := Fetch.settle_success 0 (Some "first")
              (Fetch.fetchData_start (@Fetch.init string)) in
  let mid := [Fetch.FetchResolved 1 true 200] in
  let st' := Fetch.settle_failure 1 (Fetch.mkError "Invalid JSON")
               (Fetch.set_pending {[1%nat := Fetch.AwaitJson]}
                  (Fetch.fetchData_start st)) in
  forallb (λ ev, negb (Fetch.is_success ev)) mid = true ∧
  Fetch.run (Fetch.Trigger Fetch.Refetch :: mid ++
             [Fetch.failure_event (Fetch.issued st)
                (Fetch.DecodeRejects
                   (Fetch.ThrownError (Fetch.mkError "Invalid JSON")))]) st
  = Some st' ∧
  Fetch.data st' = Fetch.data st.
Proof.
  intros st mid st'.
  assert (Fetch.run (Fetch.Trigger Fetch.Refetch :: mid ++
             [Fetch.failure_event (Fetch.issued st)
                (Fetch.DecodeRejects
                   (Fetch.ThrownError (Fetch.mkError "Invalid JSON")))]) st
          = Some st') as Hrun by (vm_compute; reflexivity).
  split; [reflexivity|]. split; [exact Hrun|].
  exact (proj1 useFetch_failure_keeps_data st Fetch.Refetch mid _ st'
           eq_refl Hrun).
Defined.

(** ** useThrottle *)

Section ThrottleProperties.
Context {F A : Type}.
Import Throttle.

Implicit Types (st : State F A) (ev : Event F A) (c : Call F A).

Lemma clear_existing_empty st : one_timer st → clear_existing st = ∅.
Proof.
  intros Hone. apply map_eq. intros k. rewrite lookup_empty.
  unfold clear_existing. destruct (timeoutId st) as [id|] eqn:Hid.
  - destruct (decide (k = id)) as [->|Hne].
    + apply lookup_delete_eq.
    + rewrite lookup_delete_ne by done.
      destruct (timers st !! k) as [t|] eqn:Hk; [|done].
      apply Hone in Hk. congruence.
  - destruct (timers st !! k) as [t|] eqn:Hk; [|done].
    apply Hone in Hk. congruence.
Qed.

(** The leading edge: [func] runs now and the time is recorded. *)
Lemma throttled_leading func delay args now st :
  delay ≤ now - lastExecuted st →
  throttled func delay args now st
  = mkState now (timeoutId st) (timers st) (nextId st)
            (invoked st ++ [mkCall now func args]) (mounted st).
Proof.
  intros Hle. unfold throttled.
  destruct (Z.leb_spec delay (now - lastExecuted st)); [done|lia].
Qed.

(** Inside the cooldown: nothing runs; the only pending timer is a new
    one, due [delay] after the recorded time, with this call's arguments. *)
Lemma throttled_cooldown func delay args now st :
  now - lastExecuted st < delay →
  one_timer st →
  throttled func delay args now st
  = mkState (lastExecuted st) (Some (nextId st))
            {[ nextId st := mkTimer (lastExecuted st + delay) func args ]}
            (Pos.succ (nextId st)) (invoked st) (mounted st).
Proof.
  intros Hlt Hone. unfold throttled.
  destruct (Z.leb_spec delay (now - lastExecuted st)); [lia|].
  rewrite clear_existing_empty by done. rewrite insert_empty.
  do 3 f_equal. lia.
Qed.

Lemma throttled_one_timer func delay args now st :
  one_timer st → one_timer (throttled func delay args now st).
Proof.
  intros Hone.
  destruct (Z.le_gt_cases delay (now - lastExecuted st)) as [Hle|Hlt].
  - rewrite throttled_leading by done. exact Hone.
  - rewrite throttled_cooldown by done. intros id t. simpl.
    intros [<- _]%lookup_singleton_Some. done.
Qed.

Lemma throttled_stamp func delay args now st :
  stamp_is_last st → stamp_is_last (throttled func delay args now st).
Proof.
  intros Hst. unfold throttled.
  destruct (Z.leb delay (now - lastExecuted st)); [|exact Hst].
  intros c. simpl. rewrite last_snoc. by intros [= <-].
Qed.

Lemma throttle_fire_Some id now st st' :
  fire id now st = Some st' →
  ∃ t, timers st !! id = Some t ∧ due t ≤ now ∧
       st' = mkState now (timeoutId st) (delete id (timers st)) (nextId st)
                     (invoked st ++ [mkCall now (tfunc t) (targs t)])
                     (mounted st).
Proof.
  unfold fire. destruct (timers st !! id) as [t|]; [|done].
  destruct (Z.leb_spec (due t) now); [|done].
  intros [= <-]. eauto.
Qed.

Lemma throttle_fire_due id t now st :
  timers st !! id = Some t → due t ≤ now →
  fire id now st
  = Some (mkState now (timeoutId st) (delete id (timers st)) (nextId st)
                  (invoked st ++ [mkCall now (tfunc t) (targs t)])
                  (mounted st)).
Proof.
  intros Ht Hdue. unfold fire. rewrite Ht.
  destruct (Z.leb_spec (due t) now); [done|lia].
Qed.

Lemma step_invariants now ev st st' :
  step now ev st = Some st' →
  one_timer st ∧ stamp_is_last st → one_timer st' ∧ stamp_is_last st'.
Proof.
  intros Hstep [Hone Hst]. destruct ev as [func delay args|id|]; simpl in Hstep.
  - injection Hstep as <-.
    split; [by apply throttled_one_timer | by apply throttled_stamp].
  - apply throttle_fire_Some in Hstep as (t & Ht & _ & ->). split.
    + intros k tk. simpl. intros [_ Hk]%lookup_delete_Some. by apply Hone in Hk.
    + intros c. simpl. rewrite last_snoc. by intros [= <-].
  - injection Hstep as <-. done.
Qed.

Lemma run_invariants evs st st' :
  run evs st = Some st' →
  one_timer st ∧ stamp_is_last st → one_timer st' ∧ stamp_is_last st'.
Proof.
  revert st. induction evs as [|[now ev] evs IH]; intros st; simpl.
  - by intros [= <-].
  - destruct (step now ev st) as [st1|] eqn:Hstep; simpl; [|done].
    intros Hrun Hinv. eapply IH; [done|]. by eapply step_invariants.
Qed.

Lemma reachable_invariants evs st :
  run evs init = Some st → one_timer st ∧ stamp_is_last st.
Proof.
  intros Hrun. eapply run_invariants; [done|]. split.
  - intros id t. simpl. by rewrite lookup_empty.
  - intros c. done.
Qed.

(** Calls that all fall inside the same cooldown leave one timer, that of
    the last of them. *)
Lemma calls_cooldown func delay (cs : list (Z * A)) nowN aN st :
  one_timer st →
  Forall (λ call, call.1 - lastExecuted st < delay) (cs ++ [(nowN, aN)]) →
  let st' := calls func delay (cs ++ [(nowN, aN)]) st in
  ∃ id, timers st' = {[ id := mkTimer (lastExecuted st + delay) func aN ]} ∧
        lastExecuted st' = lastExecuted st ∧
        invoked st' = invoked st.
Proof.
  revert st. induction cs as [|[now a] cs IH]; intros st Hone Hall;
    cbn [app calls] in *.
  - rewrite Forall_singleton in Hall. simpl in Hall.
    rewrite throttled_cooldown by done. simpl. eauto.
  - rewrite Forall_cons in Hall. destruct Hall as [Hnow Hall]. simpl in Hnow.
    pose proof (throttled_one_timer func delay a now st Hone) as Hone'.
    rewrite throttled_cooldown in * by done.
    destruct (IH _ Hone' Hall) as (id & Ht & HL & Hi). eauto.
Qed.

(** The leading edge on the states the hook reaches: a call at least
    [delay] after the last actual invocation runs [func] at once with its
    own arguments and records the time. *)
Lemma useThrottle_leading_edge evs st c func delay args now :
  run evs init = Some st →
  last (invoked st) = Some c →
  delay ≤ now - at_time c →
  let st' := throttled func delay args now st in
  invoked st' = invoked st ++ [mkCall now func args] ∧
  lastExecuted st' = now ∧
  timers st' = timers st.
Proof.
  intros Hrun Hlast Hle.
  destruct (reachable_invariants _ _ Hrun) as [_ Hst].
  specialize (Hst c Hlast). simpl.
  rewrite throttled_leading by lia. done.
Qed.

(** With [delay = 0] and a clock that does not run backwards, every call
    runs [func] at once and schedules nothing. *)
Lemma useThrottle_zero_delay (func : F) (args : A) now st :
  lastExecuted st ≤ now →
  let st' := throttled func 0 args now st in
  invoked st' = invoked st ++ [mkCall now func args] ∧
  timers st' = timers st.
Proof. intros Hle. simpl. rewrite throttled_leading by lia. done. Qed.

(** The first call runs [func] at once when the clock reads at least
    [delay]: [lastExecuted] starts at 0, not at "never". *)
Lemma useThrottle_first_call_immediate (func : F) delay (args : A) now :
  delay ≤ now →
  invoked (throttled func delay args now init) = [mkCall now func args].
Proof. intros Hle. rewrite throttled_leading by (simpl; lia). done. Qed.

(** C5, where the code departs from it. The first call ever made through
    the throttler is deferred, not run, when the clock reads less than
    [delay]: [lastExecuted] starts at 0 and the test [now - 0 >= delay]
    fails, so [func] is not invoked and a timer is armed for the time
    [delay]. *)
Theorem useThrottle_first_call_deferred (func : F) delay (args : A) now :
  now < delay →
  let st' := throttled func delay args now init in
  invoked st' = [] ∧
  lastExecuted st' = 0 ∧
  timers st' = {[ 1%positive := mkTimer delay func args ]}.
Proof.
  intros Hlt. simpl. rewrite throttled_cooldown.
  - done.
  - simpl. lia.
  - intros id t. simpl. by rewrite lookup_empty.
Qed.

(** C3. In a state the hook has reached, with the last actual invocation
    at time [at_time c], let one or more calls arrive less than [delay]
    after it. Then exactly one timer is pending; it is due at
    [at_time c + delay], which is the last call's time plus the remaining
    cooldown; it carries the arguments of the last call; no call has run
    [func]. When it fires, [func] runs once, with the arguments of the last
    call, and no timer is left: the arguments of the calls in between never
    reach [func]. *)
Theorem useThrottle_trailing_collapse evs st c func delay
    (cs : list (Z * A)) nowN aN :
  run evs init = Some st →
  last (invoked st) = Some c →
  Forall (λ call, call.1 - at_time c < delay) (cs ++ [(nowN, aN)]) →
  let st' := calls func delay (cs ++ [(nowN, aN)]) st in
  ∃ id,
    timers st' = {[ id := mkTimer (at_time c + delay) func aN ]} ∧
    at_time c + delay = nowN + (delay - (nowN - at_time c)) ∧
    invoked st' = invoked st ∧
    ∀ t, at_time c + delay ≤ t →
      ∃ st'', fire id t st' = Some st'' ∧
              invoked st'' = invoked st ++ [mkCall t func aN] ∧
              timers st'' = ∅.
Proof.
  intros Hrun Hlast Hall.
  destruct (reachable_invariants _ _ Hrun) as [Hone Hst].
  specialize (Hst c Hlast). rewrite <- Hst in *.
  destruct (calls_cooldown func delay cs nowN aN st Hone Hall)
    as (id & Ht & HL & Hi).
  exists id. split; [done|]. split; [lia|]. split; [done|].
  intros t Hdue.
  erewrite throttle_fire_due; [|rewrite Ht; apply lookup_singleton_eq|done].
  eexists. split; [done|]. simpl. rewrite Ht, Hi, delete_singleton_eq. done.
Qed.

(** C8. When a pending timer fires, [func] runs with the arguments the
    timer holds and [lastExecuted] becomes the time of the firing itself,
    whenever that is; the next cooldown is measured from that time: a later
    call less than [delay] after the firing is deferred, one at least
    [delay] after it runs at once. *)
Theorem useThrottle_trailing_timestamp st id t now :
  timers st !! id = Some t →
  due t ≤ now →
  ∃ st', fire id now st = Some st' ∧
         lastExecuted st' = now ∧
         invoked st' = invoked st ++ [mkCall now (tfunc t) (targs t)] ∧
         ∀ func delay args now',
           (now' - now < delay →
              invoked (throttled func delay args now' st') = invoked st') ∧
           (delay ≤ now' - now →
              invoked (throttled func delay args now' st')
              = invoked st' ++ [mkCall now' func args]).
Proof.
  intros Ht Hdue. rewrite (throttle_fire_due id t) by done.
  eexists. split; [done|]. split; [done|]. split; [done|].
  intros func delay args now'. unfold throttled. simpl.
  destruct (Z.leb_spec delay (now' - now)); split; intros; (done || lia).
Qed.

End ThrottleProperties.

(** The scenario of the specification, on a clock that reads 1000 at the
    first call: [delay = 100], calls after 0, 10 and 40 ms with the
    arguments 1, 2 and 3; the timer fires 100 ms after the first call. *)
Example throttle_scenario :
  Throttle.invoked <$>
    Throttle.run [(1000, Throttle.Invoke "fn" 100 1%nat);
                  (1010, Throttle.Invoke "fn" 100 2%nat);
                  (1040, Throttle.Invoke "fn" 100 3%nat);
                  (1100, Throttle.Fire 2%positive)] Throttle.init
  = Some [Throttle.mkCall 1000 "fn" 1%nat; Throttle.mkCall 1100 "fn" 3%nat].
Proof. reflexivity. Qed.

(** A timer that runs late stamps the time at which it ran: scheduled by
    the call at 1010 and due at 1100, it runs at 1103 and the call at 1150
    is still inside the cooldown. *)
Example throttle_late_timer :
  (λ st, (Throttle.lastExecuted st, length (Throttle.invoked st))) <$>
    Throttle.run [(1000, Throttle.Invoke "fn" 100 1%nat);
                  (1010, Throttle.Invoke "fn" 100 2%nat);
                  (1103, Throttle.Fire 1%positive);
                  (1150, Throttle.Invoke "fn" 100 3%nat)] Throttle.init
  = Some (1103, 2%nat).
Proof. reflexivity. Qed.

(** The test "should handle multiple rapid calls correctly": four calls
    in a row run the function once; 100 ms later the timer runs it a second
    time, and the call made right after is inside the new cooldown. *)
Example throttle_test_rapid :
  (λ st, length (Throttle.invoked st)) <$>
    Throttle.run [(1000, Throttle.Invoke "fn" 100 tt);
                  (1000, Throttle.Invoke "fn" 100 tt);
                  (1000, Throttle.Invoke "fn" 100 tt);
                  (1000, Throttle.Invoke "fn" 100 tt);
                  (1100, Throttle.Fire 3%positive);
                  (1100, Throttle.Invoke "fn" 100 tt)] Throttle.init
  = Some 2%nat.
Proof. reflexivity. Qed.

Lemma useThrottle_trailing_collapse_witness :
  let evs := [(1000, Throttle.Invoke "fn" 100 1%nat)] in
  let st := Throttle.throttled "fn" 100 1%nat 1000 Throttle.init in
  let c := Throttle.mkCall 1000 "fn" 1%nat in
  Throttle.run evs Throttle.init = Some st ∧
  last (Throttle.invoked st) = Some c ∧
  Forall (λ call : Z * nat, call.1 - Throttle.at_time c < 100)
         ([(1010, 2%nat)] ++ [(1040, 3%nat)]) ∧
  ∃ id,
    Throttle.timers
      (Throttle.calls "fn" 100 ([(1010, 2%nat)] ++ [(1040, 3%nat)]) st)
    = {[ id := Throttle.mkTimer (Throttle.at_time c + 100) "fn" 3%nat ]} ∧
    Throttle.at_time c + 100 = 1040 + (100 - (1040 - Throttle.at_time c)) ∧
    Throttle.invoked
      (Throttle.calls "fn" 100 ([(1010, 2%nat)] ++ [(1040, 3%nat)]) st)
    = Throttle.invoked st ∧
    ∀ t, Throttle.at_time c + 100 ≤ t →
      ∃ st'',
        Throttle.fire id t
          (Throttle.calls "fn" 100 ([(1010, 2%nat)] ++ [(1040, 3%nat)]) st)
        = Some st'' ∧
        Throttle.invoked st''
        = Throttle.invoked st ++ [Throttle.mkCall t "fn" 3%nat] ∧
        Throttle.timers st'' = ∅.
Proof.
  intros evs st c.
  assert (Forall (λ call : Z * nat, call.1 - Throttle.at_time c < 100)
            ([(1010, 2%nat)] ++ [(1040, 3%nat)])) as Hall.
  { repeat constructor; simpl; lia. }
  split; [reflexivity|]. split; [reflexivity|]. split; [exact Hall|].
  exact (useThrottle_trailing_collapse evs st c "fn" 100 [(1010, 2%nat)]
           1040 3%nat eq_refl eq_refl Hall).
Defined.

Lemma useThrottle_first_call_deferred_witness :
  40 < 100 ∧
  let st' := Throttle.throttled "fn" 100 7%nat 40 Throttle.init in
  Throttle.invoked st' = [] ∧
  Throttle.lastExecuted st' = 0 ∧
  Throttle.timers st' = {[ 1%positive := Throttle.mkTimer 100 "fn" 7%nat ]}.
Proof.
  assert (40 < 100) as Hlt by lia.
  split; [exact Hlt|].
  exact (useThrottle_first_call_deferred "fn" 100 7%nat 40 Hlt).
Defined.

(** The same on a wall clock: a delay longer than the time since 1970. *)
Example throttle_first_call_wall_clock :
  Throttle.invoked
    (Throttle.throttled "fn" 2000000000000 7%nat 1762128000000 Throttle.init)
  = [].
Proof. reflexivity. Qed.

Lemma useThrottle_trailing_timestamp_witness :
  let st := Throttle.calls "fn" 100 [(1000, 1%nat); (1010, 2%nat)]
              Throttle.init in
  let t := Throttle.mkTimer 1100 "fn" 2%nat in
  Throttle.timers st !! 1%positive = Some t ∧
  Throttle.due t ≤ 1103 ∧
  ∃ st', Throttle.fire 1 1103 st = Some st' ∧
         Throttle.lastExecuted st' = 1103 ∧
         Throttle.invoked st'
         = Throttle.invoked st ++ [Throttle.mkCall 1103 "fn" 2%nat] ∧
         ∀ (func : string) delay (args : nat) now',
           (now' - 1103 < delay →
              Throttle.invoked (Throttle.throttled func delay args now' st')
              = Throttle.invoked st') ∧
           (delay ≤ now' - 1103 →
              Throttle.invoked (Throttle.throttled func delay args now' st')
              = Throttle.invoked st' ++ [Throttle.mkCall now' func args]).
Proof.
  intros st t.
  assert (Throttle.due t ≤ 1103) as Hdue by (simpl; lia).
  split; [reflexivity|]. split; [exact Hdue|].
  exact (useThrottle_trailing_timestamp st 1%positive t 1103 eq_refl Hdue).
Defined.

(** C2, as stated, fails for the throttle: a call made inside the cooldown
    arms a timer, the consumer unmounts, and the timer still runs 80 ms
    later, because the hook registers nothing that would clear it. *)
Lemma useThrottle_fires_after_detach : ¬ Throttle.detach_safe string nat.
Proof.
  intros Hsafe.
  specialize (Hsafe [(1000, Throttle.Invoke "fn" 100 1%nat);
                     (1010, Throttle.Invoke "fn" 100 2%nat);
                     (1020, Throttle.Unmount)]).
  specialize (Hsafe _ 1%positive 1100 eq_refl eq_refl).
  discriminate.
Qed.

(** ** useInterval *)

Section IntervalProperties.
Context {F : Type} `{EqDecision F}.
Import Interval.

Implicit Types (st : State F) (ev : Event F).

Lemma run_cleanup_empty st :
  (∀ id t, timers st !! id = Some t → cleanup st = Some id) →
  run_cleanup st = ∅.
Proof.
  intros Hone. apply map_eq. intros k. rewrite lookup_empty.
  unfold run_cleanup. destruct (cleanup st) as [id|] eqn:Hid.
  - destruct (decide (k = id)) as [->|Hne].
    + apply lookup_delete_eq.
    + rewrite lookup_delete_ne by done.
      destruct (timers st !! k) as [t|] eqn:Hk; [|done].
      apply Hone in Hk. congruence.
  - destruct (timers st !! k) as [t|] eqn:Hk; [|done].
    apply Hone in Hk. congruence.
Qed.

Lemma remember_saved callback st :
  callbackDep st = savedCallback st →
  savedCallback (remember callback st) = Some callback ∧
  callbackDep (remember callback st) = Some callback.
Proof.
  intros Hdep. unfold remember.
  destruct (decide (callbackDep st = Some callback)) as [Heq|_]; simpl.
  - split; congruence.
  - done.
Qed.

Lemma remember_frame callback st :
  timers (remember callback st) = timers st ∧
  cleanup (remember callback st) = cleanup st ∧
  delayDep (remember callback st) = delayDep st ∧
  invoked (remember callback st) = invoked st ∧
  nextId (remember callback st) = nextId st ∧
  mounted (remember callback st) = mounted st.
Proof. unfold remember. by destruct (decide _). Qed.

Lemma schedule_saved delay now st :
  savedCallback (schedule delay now st) = savedCallback st ∧
  callbackDep (schedule delay now st) = callbackDep st ∧
  invoked (schedule delay now st) = invoked st.
Proof. unfold schedule. destruct (decide _); [done|]. by destruct delay. Qed.

(** A render whose [delay] is the one of the last commit leaves the timer
    table alone. *)
Lemma schedule_same_delay delay now st :
  delayDep st = Some delay → schedule delay now st = st.
Proof. intros Hdep. unfold schedule. by rewrite decide_True. Qed.

Lemma render_consistent callback delay now st :
  consistent st → consistent (render callback delay now st).
Proof.
  intros (Hdep & Hone & Hsaved & Hreg). unfold render.
  destruct (remember_saved callback st Hdep) as [Hs Hd].
  destruct (remember_frame callback st) as (Ht & Hc & Hdd & _ & _ & Hm).
  destruct (schedule_saved delay now (remember callback st)) as (Hs' & Hd' & _).
  split; [congruence|]. split; [|split; [rewrite Hs', Hs; eauto|]].
  - unfold schedule. destruct (decide _) as [_|_].
    + rewrite Ht, Hc. exact Hone.
    + assert (run_cleanup (remember callback st) = ∅) as Hempty.
      { apply run_cleanup_empty. rewrite Ht, Hc. exact Hone. }
      destruct delay as [d|]; simpl; rewrite Hempty; intros id t.
      * rewrite insert_empty. by intros [<- _]%lookup_singleton_Some.
      * by rewrite lookup_empty.
  - unfold schedule. destruct (decide _) as [_|_].
    + rewrite Ht, Hc, Hdd, Hm. exact Hreg.
    + destruct delay as [d|]; simpl; intros _ d' [= <-].
      eexists _, _. by rewrite lookup_insert_eq.
Qed.

Lemma tick_Some id now st st' :
  tick id now st = Some st' →
  ∃ t, timers st !! id = Some t ∧ nextDue t ≤ now ∧
       savedCallback st' = savedCallback st ∧
       callbackDep st' = callbackDep st ∧
       cleanup st' = cleanup st ∧
       delayDep st' = delayDep st ∧
       mounted st' = mounted st ∧
       timers st' = <[id := mkTimer (period t) (nextDue t + period t)]>
                      (timers st) ∧
       invoked st' = match savedCallback st with
                     | Some f => invoked st ++ [(now, f)]
                     | None => invoked st
                     end.
Proof.
  unfold tick. destruct (timers st !! id) as [t|]; [|done].
  destruct (Z.leb_spec (nextDue t) now); [|done].
  intros [= <-]. exists t. simpl. by repeat split.
Qed.

Lemma step_consistent now ev st st' :
  step now ev st = Some st' → consistent st → consistent st'.
Proof.
  destruct ev as [callback delay|id|]; simpl.
  - destruct (mounted st); [|done]. intros [= <-]. apply render_consistent.
  - intros (t & Ht & _ & Hs & Hd & Hc & Hdd & Hm & Htm & _)%tick_Some
           (Hdep & Hone & Hsaved & Hreg).
    split; [congruence|]. split; [|split; [by rewrite Hc, Hs|]].
    + intros k tk. rewrite Htm, Hc. intros [[<- _]|[_ Hk]]%lookup_insert_Some.
      * by eapply Hone.
      * by eapply Hone.
    + rewrite Hm, Hdd, Hc, Htm. intros Hmt d Hdel.
      destruct (Hreg Hmt d Hdel) as (id0 & t0 & Hc0 & Ht0 & Hp0).
      destruct (decide (id0 = id)) as [->|Hne].
      * eexists _, _. rewrite lookup_insert_eq. split; [done|].
        split; [done|]. simpl. congruence.
      * eexists _, _. by rewrite lookup_insert_ne.
  - destruct (mounted st); [|done].
    intros [= <-] (Hdep & Hone & Hsaved & Hreg).
    split; [done|]. simpl. split; [|split].
    + intros id t. rewrite run_cleanup_empty by done. by rewrite lookup_empty.
    + by intros [? [=]].
    + done.
Qed.

Lemma run_consistent evs st st' :
  run evs st = Some st' → consistent st → consistent st'.
Proof.
  revert st. induction evs as [|[now ev] evs IH]; intros st; simpl.
  - by intros [= <-].
  - destruct (step now ev st) as [st1|] eqn:Hstep; simpl; [|done].
    intros Hrun Hinv. eapply IH; [done|]. by eapply step_consistent.
Qed.

Lemma init_consistent : consistent (@init F).
Proof.
  split; [done|]. split; [|split].
  - intros id t. simpl. by rewrite lookup_empty.
  - by intros [? [=]].
  - done.
Qed.

(** The ref holds the callback of the last render. *)
Lemma run_saved evs st st' :
  run evs st = Some st' → consistent st →
  savedCallback st' = latest_callback evs (savedCallback st).
Proof.
  revert st. induction evs as [|[now ev] evs IH]; intros st; simpl.
  - by intros [= <-].
  - destruct (step now ev st) as [st1|] eqn:Hstep; simpl; [|done].
    intros Hrun Hinv.
    pose proof (step_consistent _ _ _ _ Hstep Hinv) as Hinv1.
    rewrite (IH _ Hrun Hinv1).
    destruct ev as [callback delay|id|]; simpl in Hstep; simpl; f_equal.
    + destruct (mounted st); [|done]. injection Hstep as <-.
      unfold render.
      destruct (schedule_saved delay now (remember callback st)) as (-> & _).
      by apply remember_saved, Hinv.
    + by apply tick_Some in Hstep as (t & _ & _ & -> & _).
    + destruct (mounted st); [|done]. by injection Hstep as <-.
Qed.

(** After the cleanup has run nothing is registered, the hook is not
    rendered again, and so no handler of the hook can run. *)
Lemma unmount_inert evs st now ev :
  run evs init = Some st → step now ev (unmount st) = None.
Proof.
  intros Hrun.
  destruct (run_consistent _ _ _ Hrun init_consistent) as (_ & Hone & _ & _).
  destruct ev as [callback delay|id|]; simpl; [done| |done].
  unfold tick. simpl. rewrite run_cleanup_empty by done.
  by rewrite lookup_empty.
Qed.

(** C6. In every state the hook reaches, a firing of the interval invokes
    the callback of the most recent render, whatever callback was current
    when the timer was armed. A render that changes only the callback (the
    period being the one of the last commit) leaves the timer table and the
    cleanup as they are: the same timer stays registered, due at the same
    time, and its next firing invokes the new callback. And after any
    render with a non-null period a timer of that period is registered,
    which fires whenever it is due and then invokes the callback of that
    render. *)
Theorem useInterval_latest_callback :
  (∀ evs st id now st',
     run evs init = Some st →
     tick id now st = Some st' →
     ∃ f, latest_callback evs None = Some f ∧
          invoked st' = invoked st ++ [(now, f)]) ∧
  (∀ evs st Y d now,
     run evs init = Some st →
     delayDep st = Some (Some d) →
     let st' := render Y (Some d) now st in
     timers st' = timers st ∧
     cleanup st' = cleanup st ∧
     nextId st' = nextId st ∧
     ∀ id now' st'',
       tick id now' st' = Some st'' →
       invoked st'' = invoked st' ++ [(now', Y)]) ∧
  (∀ evs st Y d now,
     run evs init = Some st →
     mounted st = true →
     let st' := render Y (Some d) now st in
     ∃ id t, timers st' !! id = Some t ∧ period t = d ∧
       ∀ now', nextDue t ≤ now' →
         ∃ st'', tick id now' st' = Some st'' ∧
                 invoked st'' = invoked st' ++ [(now', Y)]).
Proof.
  split; [|split].
  - intros evs st id now st' Hrun Htick.
    pose proof (run_consistent _ _ _ Hrun init_consistent)
      as (Hdep & Hone & Hsaved & _).
    pose proof (run_saved _ _ _ Hrun init_consistent) as Hlatest.
    simpl in Hlatest.
    apply tick_Some in Htick as (t & Ht & _ & _ & _ & _ & _ & _ & _ & Hi).
    destruct Hsaved as [f Hf]; [rewrite (Hone _ _ Ht); eauto|].
    exists f. rewrite <- Hlatest, Hi, Hf. done.
  - intros evs st Y d now Hrun Hd.
    pose proof (run_consistent _ _ _ Hrun init_consistent) as (Hdep & _).
    destruct (remember_frame Y st) as (Ht & Hc & Hdd & _ & Hn & _).
    destruct (remember_saved Y st Hdep) as [Hs _].
    simpl. unfold render.
    rewrite schedule_same_delay by congruence.
    split; [done|]. split; [done|]. split; [done|].
    intros id now' st'' Htick.
    apply tick_Some in Htick as (t & _ & _ & _ & _ & _ & _ & _ & _ & Hi).
    by rewrite Hi, Hs.
  - intros evs st Y d now Hrun Hm. simpl.
    pose proof (run_consistent _ _ _ Hrun init_consistent) as Hinv.
    pose proof (render_consistent Y (Some d) now st Hinv)
      as (_ & _ & _ & Hreg).
    pose proof Hinv as (Hdep & _).
    assert (savedCallback (render Y (Some d) now st) = Some Y) as Hs.
    { unfold render.
      destruct (schedule_saved (Some d) now (remember Y st)) as (-> & _).
      by apply remember_saved. }
    assert (mounted (render Y (Some d) now st) = true) as Hm'.
    { unfold render, schedule. destruct (decide _); simpl;
        by destruct (remember_frame Y st) as (_ & _ & _ & _ & _ & ->). }
    assert (delayDep (render Y (Some d) now st) = Some (Some d)) as Hd.
    { unfold render, schedule. by destruct (decide _). }
    destruct (Hreg Hm' d Hd) as (id & t & _ & Ht & Hp).
    exists id, t. split; [done|]. split; [done|].
    intros now' Hdue. unfold tick. rewrite Ht.
    destruct (Z.leb_spec (nextDue t) now'); [|lia].
    eexists. split; [done|]. simpl. by rewrite Hs.
Qed.

End IntervalProperties.

(** Callback X is registered with a period of 1000 ms at time 5000 and
    replaced by Y 400 ms later: the firing at 6000 invokes Y, and the one
    after it comes at 7000. *)
Example interval_scenario :
  Interval.invoked <$>
    Interval.run [(5000, Interval.Render "X" (Some 1000));
                  (5400, Interval.Render "Y" (Some 1000));
                  (6000, Interval.Tick 1%positive);
                  (7000, Interval.Tick 1%positive)] Interval.init
  = Some [(6000, "Y"); (7000, "Y")].
Proof. reflexivity. Qed.

(** The same history with the second firing asked for 1 ms early: the
    timer is not due, so the phase set at 5000 was kept. *)
Example interval_phase_kept :
  Interval.run [(5000, Interval.Render "X" (Some 1000));
                (5400, Interval.Render "Y" (Some 1000));
                (6000, Interval.Tick 1%positive);
                (6999, Interval.Tick 1%positive)] Interval.init
  = None.
Proof. reflexivity. Qed.

Lemma useInterval_latest_callback_witness :
  let evs := [(5000, Interval.Render "X" (Some 1000));
              (5400, Interval.Render "Y" (Some 1000))] in
  let st := Interval.render "Y" (Some 1000) 5400
              (Interval.render "X" (Some 1000) 5000 Interval.init) in
  let st' := Interval.mkState (Some "Y") (Some "Y") (Some (Some 1000))
               (Some 1%positive)
               {[ 1%positive := Interval.mkTimer 1000 7000 ]}
               2%positive [(6000, "Y")] true in
  Interval.run evs Interval.init = Some st ∧
  Interval.tick 1 6000 st = Some st' ∧
  ∃ f, Interval.latest_callback evs None = Some f ∧
       Interval.invoked st' = Interval.invoked st ++ [(6000, f)].
Proof.
  intros evs st st'.
  assert (Interval.tick 1 6000 st = Some st') as Htick
    by (vm_compute; reflexivity).
  split; [reflexivity|]. split; [exact Htick|].
  exact (proj1 useInterval_latest_callback evs st 1%positive 6000 st'
           eq_refl Htick).
Defined.

(** ** useDebounce, as specified *)

Section DebounceProperties.
Context {T : Type} `{EqDecision T}.
Import Debounce.

Implicit Types (st : State T) (ev : Event T).

Lemma cancel_pending_empty st : one_pending st → cancel_pending st = ∅.
Proof.
  intros Hone. apply map_eq. intros k. rewrite lookup_empty.
  unfold cancel_pending. destruct (pendingTimer st) as [id|] eqn:Hid.
  - destruct (decide (k = id)) as [->|Hne].
    + apply lookup_delete_eq.
    + rewrite lookup_delete_ne by done.
      destruct (timers st !! k) as [t|] eqn:Hk; [|done].
      apply Hone in Hk. congruence.
  - destruct (timers st !! k) as [t|] eqn:Hk; [|done].
    apply Hone in Hk. congruence.
Qed.

Lemma armed_one_pending t v d st : armed t v d st → one_pending st.
Proof.
  intros (id & Hp & Ht & _) k tk. rewrite Ht.
  by intros [<- _]%lookup_singleton_Some.
Qed.

(** A changed input arms the only timer and publishes nothing. *)
Lemma observe_change input delayMs now st :
  input ≠ seenInput st →
  one_pending st →
  observe input delayMs now st
  = mkState (currentOutput st) input (Some (nextId st))
            {[ nextId st := mkTimer (now + default 500 delayMs) input ]}
            (Pos.succ (nextId st)) (published st) (attached st).
Proof.
  intros Hne Hone. unfold observe. rewrite decide_False by done.
  by rewrite cancel_pending_empty, insert_empty.
Qed.

Lemma observe_one_pending input delayMs now st :
  one_pending st → one_pending (observe input delayMs now st).
Proof.
  intros Hone. destruct (decide (input = seenInput st)) as [Heq|Hne].
  - unfold observe. by rewrite decide_True.
  - rewrite observe_change by done. intros id t. simpl.
    by intros [<- _]%lookup_singleton_Some.
Qed.

Lemma debounce_fire_Some id now st st' :
  fire id now st = Some st' →
  ∃ t, timers st !! id = Some t ∧ due t ≤ now ∧
       st' = mkState (value t) (seenInput st) None (delete id (timers st))
                     (nextId st) (published st ++ [(now, value t)])
                     (attached st).
Proof.
  unfold fire. destruct (timers st !! id) as [t|]; [|done].
  destruct (Z.leb_spec (due t) now); [|done].
  intros [= <-]. eauto.
Qed.

Lemma step_one_pending now ev st st' :
  step now ev st = Some st' → one_pending st → one_pending st'.
Proof.
  destruct ev as [input delayMs|id|]; simpl.
  - destruct (attached st); [|done]. intros [= <-]. apply observe_one_pending.
  - intros (t & Ht & _ & ->)%debounce_fire_Some Hone k tk. simpl.
    intros [Hk Hin]%lookup_delete_Some. apply Hone in Ht, Hin. congruence.
  - destruct (attached st); [|done]. intros [= <-] Hone k tk. simpl.
    rewrite cancel_pending_empty by done. by rewrite lookup_empty.
Qed.

Lemma run_one_pending evs st st' :
  run evs st = Some st' → one_pending st → one_pending st'.
Proof.
  revert st. induction evs as [|[now ev] evs IH]; intros st; simpl.
  - by intros [= <-].
  - destruct (step now ev st) as [st1|] eqn:Hstep; simpl; [|done].
    intros Hrun Hinv. eapply IH; [done|]. by eapply step_one_pending.
Qed.

Lemma reachable_one_pending evs v0 st :
  run evs (attach v0) = Some st → one_pending st.
Proof.
  intros Hrun. eapply run_one_pending; [done|].
  intros id t. simpl. by rewrite lookup_empty.
Qed.

(** Time passing while the timer is not yet due changes nothing. *)
Lemma advance_early t v d now st :
  armed t v d st → now < t + d → advance now st = st.
Proof.
  intros (id & Hp & Ht & _) Hlt. unfold advance.
  rewrite Hp, Ht, lookup_singleton_eq. simpl.
  destruct (Z.leb_spec (t + d) now); [lia|done].
Qed.

(** Once the timer is due it fires, at the moment it is due. *)
Lemma advance_due t v d now st :
  armed t v d st → t + d ≤ now →
  advance now st
  = mkState v (seenInput st) None ∅ (nextId st)
            (published st ++ [(t + d, v)]) (attached st).
Proof.
  intros (id & Hp & Ht & _) Hle. unfold advance, fire.
  rewrite Hp, Ht, lookup_singleton_eq. simpl.
  destruct (Z.leb_spec (t + d) now); [|lia].
  destruct (Z.leb_spec (t + d) (t + d)); [|lia].
  simpl. by rewrite delete_singleton_eq.
Qed.

(** A burst of rapid changes keeps one timer armed, that of its last
    change, and publishes nothing. *)
Lemma burst_armed delayMs changes t v st :
  armed t v (default 500 delayMs) st →
  rapid (default 500 delayMs) t v changes →
  let st' := burst delayMs changes st in
  armed (final_change t v changes).1 (final_change t v changes).2
        (default 500 delayMs) st' ∧
  published st' = published st ∧
  currentOutput st' = currentOutput st.
Proof.
  revert t v st. induction changes as [|[t' v'] changes IH];
    intros t v st Harmed Hrapid; cbn [burst].
  - done.
  - destruct Hrapid as (Hv & Ht & Hrapid).
    rewrite (advance_early t v (default 500 delayMs)) by (done || lia).
    pose proof Harmed as (id & Hp & Htm & Hseen).
    rewrite observe_change
      by (by rewrite ?Hseen || by eapply armed_one_pending).
    match goal with |- context [burst delayMs changes ?s] =>
      destruct (IH t' v' s) as (Ha & Hpub & Hout) end.
    + exists (nextId st). done.
    + done.
    + replace (final_change t v ((t', v') :: changes))
        with (final_change t' v' changes).
      * done.
      * unfold final_change. rewrite last_cons. by destruct (last changes).
Qed.

(** After detach the timer is cancelled and no tick is observed: no
    handler of the debouncer can run. *)
Lemma detach_inert evs v0 st now ev :
  run evs (attach v0) = Some st → step now ev (detach st) = None.
Proof.
  intros Hrun. pose proof (reachable_one_pending _ _ _ Hrun) as Hone.
  destruct ev as [input delayMs|id|]; simpl; [done| |done].
  unfold fire. simpl. rewrite cancel_pending_empty by done.
  by rewrite lookup_empty.
Qed.

(** C4. From any state the debouncer reaches, let the input change one or
    more times, the first change at [t1] and each later one less than the
    delay after the one before. During the burst nothing is published and
    the output stays the previously published value; it stays so as long
    as less than the delay has passed since the last change; and once the
    delay has passed there has been exactly one publish, at the last
    change's time plus the delay, of the last change's value, with no timer
    left to publish anything else. *)
Theorem useDebounce_quiescence evs v0 st delayMs t1 v1 rest :
  run evs (attach v0) = Some st →
  v1 ≠ seenInput st →
  rapid (default 500 delayMs) t1 v1 rest →
  let d := default 500 delayMs in
  let tN := (final_change t1 v1 rest).1 in
  let vN := (final_change t1 v1 rest).2 in
  let stN := burst delayMs rest (observe v1 delayMs t1 st) in
  published stN = published st ∧
  currentOutput stN = currentOutput st ∧
  (∀ now, now < tN + d → advance now stN = stN) ∧
  (∀ now, tN + d ≤ now →
     published (advance now stN) = published st ++ [(tN + d, vN)] ∧
     currentOutput (advance now stN) = vN ∧
     timers (advance now stN) = ∅).
Proof.
  intros Hrun Hv Hrapid d tN vN stN.
  pose proof (reachable_one_pending _ _ _ Hrun) as Hone.
  assert (armed t1 v1 d (observe v1 delayMs t1 st)) as Harmed.
  { rewrite observe_change by done. by exists (nextId st). }
  destruct (burst_armed delayMs rest t1 v1 _ Harmed Hrapid)
    as (HarmedN & Hpub & Hout).
  fold stN d tN vN in HarmedN, Hpub, Hout.
  rewrite observe_change in Hpub, Hout by done. simpl in Hpub, Hout.
  split; [done|]. split; [done|]. split.
  - intros now Hlt. by eapply advance_early.
  - intros now Hle. rewrite (advance_due tN vN d) by done. simpl.
    by rewrite Hpub.
Qed.

End DebounceProperties.

(** The scenario of the specification: "a" at attach, "ab" 50 ms later,
    "abc" 50 ms after that, with a delay of 500 ms. *)
Example debounce_scenario :
  let st := Debounce.burst (Some 500) [(50, "ab"); (100, "abc")]
              (Debounce.attach "a") in
  Debounce.currentOutput st = "a" ∧
  Debounce.currentOutput (Debounce.advance 550 st) = "a" ∧
  Debounce.currentOutput (Debounce.advance 600 st) = "abc" ∧
  Debounce.published (Debounce.advance 600 st) = [(600, "abc")].
Proof. vm_compute. done. Qed.

(** The test "should cancel previous timeout when value changes rapidly":
    three changes in a row, 300 ms pass, then 200 ms more. *)
Example debounce_test_rapid :
  let st := Debounce.burst (Some 500)
              [(0, "changed1"); (0, "changed2"); (0, "changed3")]
              (Debounce.attach "initial") in
  Debounce.currentOutput (Debounce.advance 300 st) = "initial" ∧
  Debounce.currentOutput (Debounce.advance 500 st) = "changed3" ∧
  Debounce.published (Debounce.advance 500 st) = [(500, "changed3")].
Proof. vm_compute. done. Qed.

Lemma useDebounce_quiescence_witness :
  let evs : list (Z * Debounce.Event string) := [] in
  let st := Debounce.attach "a" in
  let stN := Debounce.burst (Some 500) [(100, "abc")]
               (Debounce.observe "ab" (Some 500) 50 st) in
  Debounce.run evs (Debounce.attach "a") = Some st ∧
  "ab" ≠ Debounce.seenInput st ∧
  Debounce.rapid 500 50 "ab" [(100, "abc")] ∧
  Debounce.published stN = Debounce.published st ∧
  Debounce.currentOutput stN = Debounce.currentOutput st ∧
  (∀ now, now < 100 + 500 → Debounce.advance now stN = stN) ∧
  (∀ now, 100 + 500 ≤ now →
     Debounce.published (Debounce.advance now stN)
     = Debounce.published st ++ [(100 + 500, "abc")] ∧
     Debounce.currentOutput (Debounce.advance now stN) = "abc" ∧
     Debounce.timers (Debounce.advance now stN) = ∅).
Proof.
  intros evs st stN.
  assert ("ab" ≠ Debounce.seenInput st) as Hv by discriminate.
  assert (Debounce.rapid 500 50 "ab" [(100, "abc")]) as Hrapid.
  { simpl. split; [discriminate|]. split; [lia|exact I]. }
  split; [reflexivity|]. split; [exact Hv|]. split; [exact Hrapid|].
  exact (useDebounce_quiescence evs "a" st (Some 500) 50 "ab"
           [(100, "abc")] eq_refl Hv Hrapid).
Defined.

(** ** Detach *)

Lemma useFetch_run_unmounted {T : Type} (evs : list (Fetch.Event T))
    (st st' : Fetch.State T) :
  Fetch.mounted st = false →
  Fetch.run evs st = Some st' →
  Fetch.visible st' = Fetch.visible st.
Proof.
  revert st. induction evs as [|ev evs IH]; intros st Hm; simpl.
  - by intros [= <-].
  - destruct (Fetch.step ev st) as [st1|] eqn:Hstep; simpl; [|done].
    destruct (step_unmounted _ _ _ Hm Hstep) as [<- Hm1]. by apply IH.
Qed.

(** C2, as the code has it. After unmount: the interval's cleanup has
    cleared its timer, so no handler of the interval hook can run any
    more; the same holds of the debouncer as it is specified; whatever
    fetch settles afterwards, the values the hook last returned stay as
    they were. The throttle alone registers nothing to run at unmount: a
    trailing timer pending at that moment still fires when it is due,
    invokes the function with the arguments it holds and overwrites
    [lastExecuted]. *)
Theorem detach_safety_as_implemented :
  (∀ (F : Type) (eqF : EqDecision F) evs (st : Interval.State F) now ev,
     Interval.run evs Interval.init = Some st →
     Interval.step now ev (Interval.unmount st) = None) ∧
  (∀ (T : Type) (eqT : EqDecision T) evs v0 (st : Debounce.State T) now ev,
     Debounce.run evs (Debounce.attach v0) = Some st →
     Debounce.step now ev (Debounce.detach st) = None) ∧
  (∀ (T : Type) (st st' : Fetch.State T) evs,
     Fetch.run (Fetch.Unmount :: evs) st = Some st' →
     Fetch.visible st' = Fetch.visible st) ∧
  (∀ (F A : Type) (st : Throttle.State F A) id t now,
     Throttle.timers st !! id = Some t →
     Throttle.due t ≤ now →
     ∃ st', Throttle.fire id now (Throttle.unmount st) = Some st' ∧
            Throttle.invoked st'
            = Throttle.invoked st
              ++ [Throttle.mkCall now (Throttle.tfunc t) (Throttle.targs t)] ∧
            Throttle.lastExecuted st' = now).
Proof.
  split; [|split; [|split]].
  - intros F eqF evs st now ev Hrun. by eapply unmount_inert.
  - intros T eqT evs v0 st now ev Hrun. by eapply detach_inert.
  - intros T st st' evs Hrun. simpl in Hrun.
    by apply useFetch_run_unmounted in Hrun.
  - intros F A st id t now Ht Hdue.
    rewrite (throttle_fire_due id t) by done. eauto.
Qed.

Lemma detach_safety_as_implemented_witness :
  let ist := Interval.render "X" (Some 1000) 5000 Interval.init in
  let dst := Debounce.observe "ab" (Some 500) 50 (Debounce.attach "a") in
  let fst := Fetch.fetchData_start (@Fetch.init string) in
  let fst' := Fetch.mkState None true None false ∅ 1 in
  let tst := Throttle.calls "fn" 100 [(1000, 1%nat); (1010, 2%nat)]
               Throttle.init in
  let tm := Throttle.mkTimer 1100 "fn" 2%nat in
  (Interval.run [(5000, Interval.Render "X" (Some 1000))] Interval.init
   = Some ist ∧
   Interval.step 6000 (Interval.Tick 1%positive) (Interval.unmount ist)
   = None) ∧
  (Debounce.run [(50, Debounce.Observe "ab" (Some 500))] (Debounce.attach "a")
   = Some dst ∧
   Debounce.step 550 (Debounce.Fire 1%positive) (Debounce.detach dst)
   = None) ∧
  (Fetch.run [Fetch.Unmount; Fetch.FetchResolved 0 true 200;
              Fetch.JsonResolved 0 (Some "late")] fst = Some fst' ∧
   Fetch.visible fst' = Fetch.visible fst) ∧
  (Throttle.timers tst !! 1%positive = Some tm ∧
   Throttle.due tm ≤ 1100 ∧
   ∃ st', Throttle.fire 1 1100 (Throttle.unmount tst) = Some st' ∧
          Throttle.invoked st'
          = Throttle.invoked tst ++ [Throttle.mkCall 1100 "fn" 2%nat] ∧
          Throttle.lastExecuted st' = 1100).
Proof.
  intros ist dst fst fst' tst tm.
  destruct detach_safety_as_implemented as (Hi & Hd & Hf & Ht).
  assert (Throttle.due tm ≤ 1100) as Hdue by (simpl; lia).
  assert (Fetch.run [Fetch.Unmount; Fetch.FetchResolved 0 true 200;
                     Fetch.JsonResolved 0 (Some "late")] fst = Some fst')
    as Hrun by (vm_compute; reflexivity).
  split; [|split; [|split]].
  - split; [reflexivity|].
    exact (Hi string _ [(5000, Interval.Render "X" (Some 1000))] ist 6000
             (Interval.Tick 1%positive) eq_refl).
  - split; [reflexivity|].
    exact (Hd string _ [(50, Debounce.Observe "ab" (Some 500))] "a" dst 550
             (Debounce.Fire 1%positive) eq_refl).
  - split; [exact Hrun|]. exact (Hf string fst fst' _ Hrun).
  - split; [reflexivity|]. split; [exact Hdue|].
    exact (Ht string nat tst 1%positive tm 1100 eq_refl Hdue).
Defined.

(** * Further properties of the hooks *)

(** ** useFetch: calls in flight *)

Section FetchCalls.
Context {T : Type}.
Import Fetch.

Implicit Types (st : State T) (ev : Event T) (evs : list (Event T)).

Lemma fetchData_start_calls st :
  pending (fetchData_start st) = <[issued st := AwaitFetch]> (pending st) ∧
  issued (fetchData_start st) = S (issued st).
Proof.
  destruct st as [? ? ? [] ? ?];
    unfold fetchData_start, setError, setLoading; done.
Qed.

Lemma settle_failure_calls op e st :
  pending (settle_failure op e st) = delete op (pending st) ∧
  issued (settle_failure op e st) = issued st.
Proof.
  destruct st as [? ? ? [] ? ?];
    unfold settle_failure, set_pending, setError, setLoading; done.
Qed.

Lemma settle_success_calls op v st :
  pending (settle_success op v st) = delete op (pending st) ∧
  issued (settle_success op v st) = issued st.
Proof.
  destruct st as [? ? ? [] ? ?];
    unfold settle_success, set_pending, setData, setLoading; done.
Qed.

(** What one handler does to the table of suspended calls. *)
Lemma step_calls ev st st' :
  step ev st = Some st' →
  match ev with
  | Trigger _ =>
      pending st' = <[issued st := AwaitFetch]> (pending st) ∧
      issued st' = S (issued st)
  | Unmount => pending st' = pending st ∧ issued st' = issued st
  | FetchResolved op true _ =>
      is_Some (pending st !! op) ∧
      pending st' = <[op := AwaitJson]> (pending st) ∧
      issued st' = issued st
  | FetchResolved op false _ | FetchRejected op _
  | JsonResolved op _ | JsonRejected op _ =>
      is_Some (pending st !! op) ∧
      pending st' = delete op (pending st) ∧
      issued st' = issued st
  end.
Proof.
  destruct ev as [why|op ok status|op r|op v|op r|]; simpl.
  - intros [= <-]. apply fetchData_start_calls.
  - destruct (pending st !! op) as [[]|] eqn:Hp; try done.
    destruct ok; intros [= <-].
    + by split; [eauto|].
    + split; [eauto|]. apply settle_failure_calls.
  - destruct (pending st !! op) as [[]|] eqn:Hp; try done.
    intros [= <-]. split; [eauto|]. apply settle_failure_calls.
  - destruct (pending st !! op) as [[]|] eqn:Hp; try done.
    intros [= <-]. split; [eauto|]. apply settle_success_calls.
  - destruct (pending st !! op) as [[]|] eqn:Hp; try done.
    intros [= <-]. split; [eauto|]. apply settle_failure_calls.
  - by intros [= <-].
Qed.

(** Triggers while earlier calls are still in flight (a changed descriptor,
    a refetch) keep the data fetched so far on display, with [loading]
    raised and [error] cleared, and abort nothing: each starts one more
    call and every earlier call stays suspended where it was. *)
Theorem useFetch_retrigger_keeps_data st (whys : list Cause) :
  mounted st = true →
  whys ≠ [] →
  ∃ st', run (Trigger <$> whys) st = Some st' ∧
         visible st' = (data st, true, None) ∧
         issued st' = (issued st + length whys)%nat ∧
         ∀ op, (op < issued st)%nat → pending st' !! op = pending st !! op.
Proof.
  intros Hm Hne.
  assert (∀ st0, mounted st0 = true →
            ∃ st', run (Trigger <$> whys) st0 = Some st' ∧
                   (whys ≠ [] → visible st' = (data st0, true, None)) ∧
                   issued st' = (issued st0 + length whys)%nat ∧
                   ∀ op, (op < issued st0)%nat →
                         pending st' !! op = pending st0 !! op) as Hgen.
  { clear. induction whys as [|why whys IH]; intros st0 Hm; simpl.
    - exists st0. split; [done|]. split; [done|]. split; [lia|done].
    - destruct (IH (fetchData_start st0)) as (st' & Hrun & Hv & Hi & Hp).
      { by rewrite fetchData_start_mounted. }
      destruct (fetchData_start_calls st0) as [Hp0 Hi0].
      destruct (fetchData_start_fields st0 Hm) as [Hd0 He0].
      exists st'. split; [done|]. split; [|split].
      + intros _. destruct whys as [|why' whys].
        * simpl in Hrun. injection Hrun as <-.
          by apply fetchData_start_visible.
        * rewrite Hv by done. by rewrite Hd0.
      + rewrite Hi, Hi0. lia.
      + intros op Hop. rewrite Hp by (rewrite Hi0; lia).
        rewrite Hp0, lookup_insert_ne by lia. done. }
  destruct (Hgen st Hm) as (st' & Hrun & Hv & Hi & Hp).
  exists st'. split; [done|]. split; [by apply Hv|]. done.
Qed.

(** [finally] lowers [loading] for whichever call settles: when one of two
    calls in flight settles, [loading] becomes false although the other
    call is still suspended. *)
Theorem useFetch_loading_lowered_early st ev op op' stage st' :
  mounted st = true →
  settles ev = Some op →
  op' ≠ op →
  pending st !! op' = Some stage →
  step ev st = Some st' →
  loading st' = false ∧ pending st' !! op' = Some stage.
Proof.
  intros Hm Hev Hne Hp' Hstep.
  pose proof (step_calls _ _ _ Hstep) as Hcalls.
  destruct ev as [why|o [] status|o r|o v|o r|]; simpl in Hev; try done;
    injection Hev as ->; destruct Hcalls as (_ & Hp & _);
    (split; [|by rewrite Hp, lookup_delete_ne]);
    simpl in Hstep; destruct (pending st !! op) as [[]|]; try done;
    injection Hstep as <-.
  - pose proof (settle_failure_visible op (http_error status) st Hm) as Hv.
    by injection Hv.
  - pose proof (settle_failure_visible op (normalize r) st Hm) as Hv.
    by injection Hv.
  - pose proof (settle_success_visible op v st Hm) as Hv. by injection Hv.
  - pose proof (settle_failure_visible op (normalize r) st Hm) as Hv.
    by injection Hv.
Qed.

End FetchCalls.

(** The message of the error for a response that is not ok determines the
    status: different statuses give different errors. *)
Theorem http_error_inj (status1 status2 : nat) :
  Fetch.http_error status1 = Fetch.http_error status2 → status1 = status2.
Proof.
  unfold Fetch.http_error. intros [= Heq].
  apply (inj (String.app _)) in Heq. by apply (inj pretty) in Heq.
Qed.

(** ** useThrottle: pacing *)

Section ThrottlePacing.
Context {F A : Type}.
Import Throttle.

Implicit Types (st : State F A) (ev : Event F A) (c : Call F A).

Lemma one_timer_cases st :
  one_timer st →
  timers st = ∅ ∨
  ∃ id t, timeoutId st = Some id ∧ timers st = {[ id := t ]}.
Proof.
  intros Hone. destruct (timeoutId st) as [id|] eqn:Hid.
  - destruct (timers st !! id) as [t|] eqn:Ht.
    + right. exists id, t. split; [done|]. apply map_eq. intros k.
      destruct (decide (k = id)) as [->|Hne].
      * by rewrite lookup_singleton_eq.
      * rewrite lookup_singleton_ne by done.
        destruct (timers st !! k) as [tk|] eqn:Hk; [|done].
        apply Hone in Hk. congruence.
    + left. apply map_eq. intros k. rewrite lookup_empty.
      destruct (timers st !! k) as [tk|] eqn:Hk; [|done].
      pose proof (Hone _ _ Hk). congruence.
  - left. apply map_eq. intros k. rewrite lookup_empty.
    destruct (timers st !! k) as [tk|] eqn:Hk; [|done].
    pose proof (Hone _ _ Hk). congruence.
Qed.

(** However the function is called and whenever timers fire, at most one
    timeout of the hook is pending: every call in the cooldown clears the
    one before. *)
Theorem useThrottle_one_pending_timer evs st :
  run evs init = Some st → (size (timers st) ≤ 1)%nat.
Proof.
  intros Hrun. destruct (reachable_invariants _ _ Hrun) as [Hone _].
  destruct (one_timer_cases st Hone) as [->|(id & t & _ & ->)].
  - rewrite map_size_empty. lia.
  - rewrite map_size_singleton. lia.
Qed.





(** The leading branch does not clear a pending timeout. If a timer is
    overdue when a call arrives at least the delay after the last
    invocation, the function runs for the call and again when the timer
    fires, with the arguments the timer holds. *)
Theorem useThrottle_overdue_timer_still_fires st id t func delay args
    now now' :
  timers st !! id = Some t →
  delay ≤ now - lastExecuted st →
  due t ≤ now' →
  ∃ st', fire id now' (throttled func delay args now st) = Some st' ∧
         invoked st'
         = invoked st ++ [mkCall now func args;
                          mkCall now' (tfunc t) (targs t)].
Proof.
  intros Ht Hle Hdue. rewrite throttled_leading by done.
  erewrite throttle_fire_due; [|exact Ht|done].
  eexists. split; [done|]. simpl. by rewrite <- app_assoc.
Qed.

(** With a delay of 0 and a clock that does not run backwards, every call
    of a sequence runs the function at once, in order, with its own
    arguments, and no timeout is ever armed. *)
Theorem useThrottle_zero_delay_all (func : F) (cs : list (Z * A)) st :
  chronological (lastExecuted st) cs →
  invoked (calls func 0 cs st) = invoked st ++ calls_made func cs ∧
  timers (calls func 0 cs st) = timers st.
Proof.
  revert st. induction cs as [|[now a] cs IH]; intros st; cbn [calls].
  - intros _. unfold calls_made. simpl. by rewrite app_nil_r.
  - intros [Hle Hch].
    rewrite throttled_leading by lia.
    match goal with |- context [calls func 0 cs ?s] =>
      destruct (IH s Hch) as [-> ->] end.
    simpl. unfold calls_made. by rewrite <- app_assoc.
Qed.

End ThrottlePacing.

(** ** useInterval: pausing and re-arming *)

Section IntervalTimers.
Context {F : Type} `{EqDecision F}.
Import Interval.

Implicit Types (st : State F) (ev : Event F).

(** A registered timer has the period of the last commit, and the hook is
    mounted. *)
Lemma step_armed now ev st st' :
  step now ev st = Some st' →
  consistent st →
  (∀ id t, timers st !! id = Some t →
     delayDep st = Some (Some (period t)) ∧ mounted st = true) →
  (∀ id t, timers st' !! id = Some t →
     delayDep st' = Some (Some (period t)) ∧ mounted st' = true).
Proof.
  intros Hstep (Hdep & Hone & _) Harmed.
  destruct ev as [callback delay|id|]; simpl in Hstep.
  - destruct (mounted st) eqn:Hm; [|done]. injection Hstep as <-.
    unfold render.
    destruct (remember_frame callback st) as (Ht & Hc & Hdd & _ & _ & Hm').
    unfold schedule. destruct (decide _) as [Heq|Hne].
    + intros id t. rewrite Ht, Hdd, Hm'. intros Hk.
      destruct (Harmed id t Hk). done.
    + assert (run_cleanup (remember callback st) = ∅) as ->.
      { apply run_cleanup_empty. by rewrite Ht, Hc. }
      destruct delay as [d|]; simpl; intros id t.
      * rewrite insert_empty. intros [_ <-]%lookup_singleton_Some. simpl.
        by rewrite Hm'.
      * by rewrite lookup_empty.
  - apply tick_Some in Hstep
      as (t & Ht & _ & _ & _ & _ & Hdd & Hm & Htm & _).
    intros k tk. rewrite Htm, Hdd, Hm.
    intros [[<- <-]|[_ Hk]]%lookup_insert_Some; simpl; eauto.
  - destruct (mounted st); [|done]. injection Hstep as <-. simpl.
    intros id t. rewrite run_cleanup_empty by done. by rewrite lookup_empty.
Qed.

Lemma run_armed evs st st' :
  run evs st = Some st' →
  consistent st →
  (∀ id t, timers st !! id = Some t →
     delayDep st = Some (Some (period t)) ∧ mounted st = true) →
  (∀ id t, timers st' !! id = Some t →
     delayDep st' = Some (Some (period t)) ∧ mounted st' = true).
Proof.
  revert st. induction evs as [|[now ev] evs IH]; intros st; simpl.
  - by intros [= <-].
  - destruct (step now ev st) as [st1|] eqn:Hstep; simpl; [|done].
    intros Hrun Hinv Harmed. eapply IH; [done| |].
    + by eapply step_consistent.
    + by eapply step_armed.
Qed.

Lemma paused_no_timer evs st :
  run evs init = Some st →
  delayDep st = Some None → timers st = ∅.
Proof.
  intros Hrun Hoff. apply map_eq. intros k. rewrite lookup_empty.
  destruct (timers st !! k) as [tk|] eqn:Hk; [|done].
  assert (delayDep st = Some (Some (period tk)) ∧ mounted st = true) as [Hd _].
  { eapply run_armed; [done|apply init_consistent| |done].
    intros id t. simpl. by rewrite lookup_empty. }
  congruence.
Qed.

(** In every state the hook reaches, a timer is registered exactly when the
    hook is mounted with a non-null period; then it is the only one, it
    has that period, and it is the one the cleanup will clear. *)
Theorem useInterval_timer_iff_period evs st :
  run evs init = Some st →
  (∀ d, mounted st = true → delayDep st = Some (Some d) →
     ∃ id t, timers st = {[ id := t ]} ∧ period t = d ∧
             cleanup st = Some id) ∧
  (mounted st = false ∨ delayDep st = None ∨ delayDep st = Some None →
     timers st = ∅).
Proof.
  intros Hrun.
  pose proof (run_consistent _ _ _ Hrun init_consistent)
    as (_ & Hone & _ & Hreg).
  assert (∀ id t, timers st !! id = Some t →
            delayDep st = Some (Some (period t)) ∧ mounted st = true)
    as Harmed.
  { eapply run_armed; [done|apply init_consistent|].
    intros id t. simpl. by rewrite lookup_empty. }
  split.
  - intros d Hm Hd. destruct (Hreg Hm d Hd) as (id & t & Hc & Ht & Hp).
    exists id, t. split; [|done]. apply map_eq. intros k.
    destruct (decide (k = id)) as [->|Hne].
    + by rewrite lookup_singleton_eq.
    + rewrite lookup_singleton_ne by done.
      destruct (timers st !! k) as [tk|] eqn:Hk; [|done].
      apply Hone in Hk. congruence.
  - intros Hoff. apply map_eq. intros k. rewrite lookup_empty.
    destruct (timers st !! k) as [tk|] eqn:Hk; [|done].
    destruct (Harmed k tk Hk) as [Hd Hm].
    destruct Hoff as [?|[?|?]]; congruence.
Qed.

(** Passing [null] as the delay pauses the interval: the timer is cleared,
    so nothing fires until a render supplies a period again, while the
    callback is still remembered. *)
Theorem useInterval_null_pauses evs st callback now :
  run evs init = Some st →
  let st' := render callback None now st in
  timers st' = ∅ ∧
  savedCallback st' = Some callback ∧
  ∀ id now', tick id now' st' = None.
Proof.
  intros Hrun. simpl.
  pose proof (run_consistent _ _ _ Hrun init_consistent) as Hinv.
  pose proof Hinv as (Hdep & Hone & _).
  pose proof (paused_no_timer evs st Hrun) as Hoff.
  assert (timers (render callback None now st) = ∅) as Hempty.
  { unfold render.
    destruct (remember_frame callback st) as (Ht & Hc & Hdd & _).
    unfold schedule. destruct (decide _) as [Heq|Hne]; simpl.
    - rewrite Ht. apply Hoff. rewrite <- Hdd. auto.
    - apply run_cleanup_empty. by rewrite Ht, Hc. }
  split; [done|]. split.
  - unfold render.
    destruct (schedule_saved None now (remember callback st)) as (-> & _).
    by apply remember_saved.
  - intros id now'. unfold tick. by rewrite Hempty, lookup_empty.
Qed.

(** A render with a period other than the one of the last commit clears
    the old timer and registers exactly one new timer with the new period.
    For a period the runtime takes at face value (from 1 to 2147483647 ms;
    [setInterval] turns any other into 1 ms) that timer is first due one
    new period after the render: the old phase is lost. *)
Theorem useInterval_period_change_rearms evs st callback d now :
  run evs init = Some st →
  delayDep st ≠ Some (Some d) →
  1 ≤ d ≤ 2147483647 →
  let st' := render callback (Some d) now st in
  timers st' = {[ nextId st := mkTimer d (now + d) ]} ∧
  cleanup st' = Some (nextId st).
Proof.
  intros Hrun Hne Hrange. simpl.
  pose proof (run_consistent _ _ _ Hrun init_consistent) as (_ & Hone & _).
  unfold render.
  destruct (remember_frame callback st) as (Ht & Hc & Hdd & _ & Hn & _).
  unfold schedule. rewrite decide_False by congruence. simpl.
  rewrite run_cleanup_empty by (by rewrite Ht, Hc).
  by rewrite insert_empty, Hn.
Qed.

End IntervalTimers.

(** ** useToggle *)

Section ToggleProperties.
Import Toggle.

Implicit Types (st : State) (ev : Event) (evs : list Event).

Lemma observed_step st ev :
  observed (step st ev) = effect_of (observed st) ev.
Proof.
  destruct ev; unfold observed, render; simpl;
    rewrite ?fold_left_app; done.
Qed.

Lemma observed_run evs st :
  observed (run evs st) = fold_left effect_of evs (observed st).
Proof.
  revert st. induction evs as [|ev evs IH]; intros st; simpl; [done|].
  unfold run in IH. rewrite IH. by rewrite observed_step.
Qed.

(** What the consumer reads after a history of calls does not depend on
    how the calls were batched between renders: it is the result of
    applying the calls one after the other to the value read before. In
    particular two toggles inside one batch cancel out, the updater form
    [prev => !prev] seeing the result of the update queued before it. *)
Theorem useToggle_batching evs st :
  observed (run evs st) = fold_left effect_of evs (observed st) ∧
  observed (run [CallToggle; CallToggle] st) = observed st.
Proof.
  split; [apply observed_run|].
  rewrite observed_run. simpl. apply negb_involutive.
Qed.

Lemma effect_no_render n v :
  fold_left effect_of (replicate n CallToggle) v
  = if Nat.even n then v else negb v.
Proof.
  revert v. induction n as [|n IH]; intros v; [done|].
  cbn [replicate fold_left]. rewrite IH. unfold effect_of.
  rewrite Nat.even_succ, <- Nat.negb_even.
  destruct (Nat.even n), v; done.
Qed.

(** [n] toggles leave the value as it was when [n] is even and negate it
    when [n] is odd; and after [setTrue] (or [setFalse]) whatever was
    called before no longer matters. *)
Theorem useToggle_algebra st :
  (∀ n, observed (run (replicate n CallToggle) st)
        = if Nat.even n then observed st else negb (observed st)) ∧
  (∀ before after,
     observed (run (before ++ CallSetTrue :: after) st)
     = fold_left effect_of after true) ∧
  (∀ before after,
     observed (run (before ++ CallSetFalse :: after) st)
     = fold_left effect_of after false).
Proof.
  split; [|split].
  - intros n. by rewrite observed_run, effect_no_render.
  - intros before after.
    by rewrite observed_run, fold_left_app.
  - intros before after.
    by rewrite observed_run, fold_left_app.
Qed.

End ToggleProperties.

(** ** usePrevious *)

Section PreviousProperties.
Context {T : Type}.
Import Previous.

Lemma renders_from (values : list T) (st : State T) :
  renders values st = take (length values) (ref st :: (Some <$> values)).
Proof.
  revert st. induction values as [|v values IH]; intros st; [done|].
  cbn [renders]. rewrite IH. simpl. done.
Qed.

(** The first render returns [undefined]; every later render returns the
    value that was passed to the render just before it, whether or not it
    differs from the value passed now. *)
Theorem usePrevious_returns_previous (values : list T) :
  renders values init = take (length values) (None :: (Some <$> values)) ∧
  (∀ i v, values !! i = Some v → (S i < length values)%nat →
          renders values init !! S i = Some (Some v)).
Proof.
  split; [apply renders_from|].
  intros i v Hv Hlt. rewrite renders_from.
  rewrite lookup_take_lt by lia.
  change ((Some <$> values) !! i = Some (Some v)).
  by rewrite list_lookup_fmap, Hv.
Qed.

End PreviousProperties.

(** ** useWindowSize *)

Section WindowSizeProperties.
Import WindowSize.

Implicit Types (st : State) (ev : Event) (evs : list Event).

Lemma step_tracks ev st st' :
  step ev st = Some st' →
  is_Some (inner st) ∧
    (phase st = Rendered → listening st = false) ∧
    (phase st = Mounted → inner st = Some (windowSize st) ∧
                          listening st = true) ∧
    (phase st = Unmounted → listening st = false) →
  is_Some (inner st') ∧
    (phase st' = Rendered → listening st' = false) ∧
    (phase st' = Mounted → inner st' = Some (windowSize st') ∧
                           listening st' = true) ∧
    (phase st' = Unmounted → listening st' = false).
Proof.
  intros Hstep ([sz Hsz] & Hr & Hm & Hu).
  destruct st as [ws ph inn lis]. simpl in *. subst inn.
  destruct ev as [|sz'| |]; destruct ph; simpl in Hstep; try done;
    injection Hstep as <-; unfold effect, handleResize, setWindowSize, unmount;
    simpl; try (destruct lis; simpl); repeat split; try done; eauto;
    try (intros; by destruct Hm); try (by intros; destruct Hr);
    try (by intros; destruct Hu).
Qed.

Lemma run_tracks evs st st' :
  run evs st = Some st' →
  is_Some (inner st) ∧
    (phase st = Rendered → listening st = false) ∧
    (phase st = Mounted → inner st = Some (windowSize st) ∧
                          listening st = true) ∧
    (phase st = Unmounted → listening st = false) →
  is_Some (inner st') ∧
    (phase st' = Rendered → listening st' = false) ∧
    (phase st' = Mounted → inner st' = Some (windowSize st') ∧
                           listening st' = true) ∧
    (phase st' = Unmounted → listening st' = false).
Proof.
  revert st. induction evs as [|ev evs IH]; intros st; simpl.
  - by intros [= <-].
  - destruct (step ev st) as [st1|] eqn:Hstep; simpl; [|done].
    intros Hrun Hinv. eapply IH; [done|]. by eapply step_tracks.
Qed.

(** In a browser, once the effect has run, the size the hook returns is the
    current size of the window after every handler, however the window was
    resized before or after the effect (the call of the handler inside the
    effect picks up a resize that came between the first render and the
    effect), and the listener stays registered. *)
Theorem useWindowSize_tracks_window sz0 evs st :
  run evs (first_render (Some sz0)) = Some st →
  phase st = Mounted →
  inner st = Some (windowSize st) ∧ listening st = true.
Proof.
  intros Hrun Hm.
  destruct (run_tracks evs _ _ Hrun) as (_ & _ & Hmounted & _); [|by auto].
  simpl. repeat split; eauto; done.
Qed.

Lemma step_unmounted_frozen ev st st' :
  step ev st = Some st' →
  phase st = Unmounted ∧ listening st = false →
  (phase st' = Unmounted ∧ listening st' = false) ∧
  windowSize st' = windowSize st.
Proof.
  intros Hstep [Hp Hl]. destruct st as [ws ph inn lis]. simpl in *. subst.
  destruct ev as [|sz'| |]; simpl in Hstep; try done.
  unfold resize in Hstep. simpl in Hstep. destruct inn; [|done].
  by injection Hstep as <-.
Qed.

(** After unmount the listener is gone: later resizes of the window leave
    the size the hook last returned untouched. *)
Theorem useWindowSize_unmounted_frozen inner0 evs st later st' :
  run evs (first_render inner0) = Some st →
  phase st = Unmounted →
  run later st = Some st' →
  listening st' = false ∧ windowSize st' = windowSize st.
Proof.
  intros Hrun Hp Hlater.
  assert (listening st = false) as Hl.
  { destruct inner0 as [sz0|].
    - destruct (run_tracks evs _ _ Hrun) as (_ & _ & _ & Hu); [|by auto].
      simpl. repeat split; eauto; done.
    - clear Hlater.
      assert (∀ s, inner s = None → listening s = false →
                run evs s = Some st → listening st = false) as Hgen.
      { clear. induction evs as [|ev evs IH]; intros s Hi Hl; simpl.
        - by intros [= <-].
        - destruct (step ev s) as [s1|] eqn:Hstep; simpl; [|done].
          apply IH; destruct s as [ws ph inn lis]; simpl in *; subst;
            destruct ev, ph; simpl in Hstep; try done;
            injection Hstep as <-; by unfold effect, unmount. }
      by apply (Hgen (first_render None)). }
  clear Hrun. revert st Hp Hl Hlater.
  induction later as [|ev later IH]; intros st Hp Hl; simpl.
  - by intros [= <-].
  - destruct (step ev st) as [s1|] eqn:Hstep; simpl; [|done].
    intros Hrun.
    destruct (step_unmounted_frozen _ _ _ Hstep (conj Hp Hl))
      as [[Hp1 Hl1] <-].
    by apply IH.
Qed.

(** Without a [window] (server rendering) the hook returns 0 by 0, the
    effect registers nothing and that size never changes. *)
Theorem useWindowSize_without_window evs st :
  run evs (first_render None) = Some st →
  windowSize st = mkSize 0 0 ∧ listening st = false ∧ inner st = None.
Proof.
  assert (∀ s, inner s = None → listening s = false →
            windowSize s = mkSize 0 0 → run evs s = Some st →
            windowSize st = mkSize 0 0 ∧ listening st = false ∧
            inner st = None) as Hgen.
  { induction evs as [|ev evs IH]; intros s Hi Hl Hw; simpl.
    - by intros [= <-].
    - destruct (step ev s) as [s1|] eqn:Hstep; simpl; [|done].
      apply IH; destruct s as [ws ph inn lis]; simpl in *; subst;
        destruct ev, ph; simpl in Hstep; try done;
        injection Hstep as <-; by unfold effect, unmount. }
  by apply (Hgen (first_render None)).
Qed.

End WindowSizeProperties.

(** ** useMediaQuery *)

Section MediaQueryProperties.
Import MediaQuery.

Implicit Types (st : State) (ev : Event) (evs : list Event).

(** The effect of [setMatches] on a mounted component. *)
Lemma setMatches_mounted b st :
  mounted st = true →
  matches (setMatches b st) = b ∧
  queryDep (setMatches b st) = queryDep st ∧
  subscribed (setMatches b st) = subscribed st ∧
  listeners (setMatches b st) = listeners st ∧
  media (setMatches b st) = media st ∧
  window (setMatches b st) = window st ∧
  mounted (setMatches b st) = true ∧
  returned (setMatches b st)
  = returned st ++ (if bool_decide (b = matches st) then [] else [b]).
Proof.
  intros Hm. unfold setMatches. rewrite Hm.
  destruct (bool_decide_reflect (b = matches st)) as [->|Hne]; simpl.
  - by rewrite app_nil_r.
  - done.
Qed.

(** What a render does in a browser, while mounted and subscribed to the
    query of the render before. *)
Lemma render_follows query st q :
  window st = true → mounted st = true →
  queryDep st = Some q → subscribed st = Some q → listeners st = [q] →
  matches st = evaluate (media st) q →
  queryDep (render query st) = Some query ∧
  subscribed (render query st) = Some query ∧
  listeners (render query st) = [query] ∧
  matches (render query st) = evaluate (media st) query ∧
  media (render query st) = media st ∧
  window (render query st) = true ∧
  mounted (render query st) = true ∧
  returned (render query st)
  = returned st ++ matches st ::
      (if bool_decide (evaluate (media st) query = matches st) then []
       else [evaluate (media st) query]).
Proof.
  intros Hw Hm Hq Hs Hl Hmt.
  destruct st as [m qd sub ls med w mt ret]. simpl in *. subst.
  unfold render, subscribe, returns. simpl.
  destruct (decide (Some q = Some query)) as [[= ->]|Hne]; simpl.
  - rewrite bool_decide_eq_true_2 by done. done.
  - unfold run_cleanup. simpl. rewrite decide_True by done. simpl.
    unfold setMatches. simpl.
    destruct (bool_decide_reflect
                (evaluate med query = evaluate med q)) as [Heq|Hneq]; simpl.
    + rewrite Heq. done.
    + by rewrite <- app_assoc.
Qed.

(** What holds while the hook is mounted in a browser, and after. *)
Lemma step_follows ev st st' q0 :
  step ev st = Some st' →
  window st = true ∧
    (mounted st = true →
       queryDep st = Some q0 ∧ subscribed st = Some q0 ∧
       listeners st = [q0] ∧ matches st = evaluate (media st) q0 ∧
       last (returned st) = Some (matches st)) ∧
    (mounted st = false → listeners st = []) →
  window st' = true ∧
    (mounted st' = true →
       queryDep st' = Some (latest_query [ev] q0) ∧
       subscribed st' = Some (latest_query [ev] q0) ∧
       listeners st' = [latest_query [ev] q0] ∧
       matches st' = evaluate (media st') (latest_query [ev] q0) ∧
       last (returned st') = Some (matches st')) ∧
    (mounted st' = false → listeners st' = []).
Proof.
  intros Hstep (Hw & Hon & Hoff).
  destruct ev as [query|query b|]; simpl in Hstep.
  - destruct (mounted st) eqn:Hm; [|done]. injection Hstep as <-.
    destruct (Hon eq_refl) as (Hq & Hs & Hl & Hmt & _).
    destruct (render_follows query st q0 Hw Hm Hq Hs Hl Hmt)
      as (Hq' & Hs' & Hl' & Hmt' & Hmed' & Hw' & Hm' & Hret').
    split; [done|]. split; [|by rewrite Hm'].
    intros _. simpl. rewrite Hmed', Hret'.
    repeat split; try done.
    destruct (bool_decide_reflect
                (evaluate (media st) query = matches st)) as [Heq|Hneq].
    + rewrite last_snoc. congruence.
    + rewrite last_app_cons. simpl. congruence.
  - rewrite Hw in Hstep. injection Hstep as <-.
    destruct st as [m qd sub ls med w [] ret]; simpl in *; subst.
    + destruct (Hon eq_refl) as (-> & -> & -> & -> & Hlast).
      unfold change, setMatches. simpl.
      destruct (decide (query = q0)) as [->|Hne].
      * rewrite bool_decide_eq_true_2 by (by apply list_elem_of_singleton).
        destruct (bool_decide_reflect (b = evaluate med q0)) as [->|Hneq];
          simpl; (split; [done|]); (split; [|done]); intros _;
          unfold evaluate; rewrite lookup_insert_eq; simpl;
          repeat split; try done.
        by rewrite last_snoc.
      * rewrite bool_decide_eq_false_2
          by (by intros ?%list_elem_of_singleton).
        simpl. split; [done|]. split; [|done]. intros _.
        unfold evaluate. rewrite lookup_insert_ne by done.
        repeat split; done.
    + unfold change, setMatches. simpl. rewrite (Hoff eq_refl). simpl.
      done.
  - destruct (mounted st) eqn:Hm; [|done]. injection Hstep as <-.
    destruct (Hon eq_refl) as (Hq & Hs & Hl & _).
    unfold unmount, run_cleanup. rewrite Hs. simpl. rewrite Hl. simpl.
    rewrite decide_True by done. done.
Qed.

Lemma run_follows evs st st' q0 :
  run evs st = Some st' →
  window st = true ∧
    (mounted st = true →
       queryDep st = Some q0 ∧ subscribed st = Some q0 ∧
       listeners st = [q0] ∧ matches st = evaluate (media st) q0 ∧
       last (returned st) = Some (matches st)) ∧
    (mounted st = false → listeners st = []) →
  window st' = true ∧
    (mounted st' = true →
       queryDep st' = Some (latest_query evs q0) ∧
       subscribed st' = Some (latest_query evs q0) ∧
       listeners st' = [latest_query evs q0] ∧
       matches st' = evaluate (media st') (latest_query evs q0) ∧
       last (returned st') = Some (matches st')) ∧
    (mounted st' = false → listeners st' = []).
Proof.
  revert st q0. induction evs as [|ev evs IH]; intros st q0.
  - simpl. by intros [= <-].
  - cbn [run]. destruct (step ev st) as [st1|] eqn:Hstep; simpl; [|done].
    intros Hrun Hinv.
    pose proof (step_follows _ _ _ q0 Hstep Hinv) as Hinv1.
    pose proof (IH st1 (latest_query [ev] q0) Hrun Hinv1) as Hend.
    by destruct ev.
Qed.

Lemma mount_follows query0 media0 :
  let st := mount query0 media0 true in
  window st = true ∧ mounted st = true ∧
  queryDep st = Some query0 ∧ subscribed st = Some query0 ∧
  listeners st = [query0] ∧ matches st = evaluate (media st) query0 ∧
  last (returned st) = Some (matches st).
Proof.
  unfold mount, render, subscribe, returns, run_cleanup, setMatches. simpl.
  rewrite bool_decide_eq_true_2 by done. done.
Qed.

(** In a browser, while the hook is mounted, the state it holds is how the
    browser currently evaluates the query of the last render, through any
    history of renders with other queries and 'change' events; it has
    exactly one listener, on the list of that query (a new query moves the
    listener, it does not add one); and the value the consumer was last
    given is that state. A render itself first returns the state the hook
    had, computed for the query of the render before, and is followed by a
    second return only when the new query evaluates differently. After
    unmount no listener is left. *)
Theorem useMediaQuery_follows_query query0 media0 evs st :
  run evs (mount query0 media0 true) = Some st →
  (mounted st = true →
     queryDep st = Some (latest_query evs query0) ∧
     listeners st = [latest_query evs query0] ∧
     matches st = evaluate (media st) (latest_query evs query0) ∧
     last (returned st) = Some (matches st) ∧
     ∀ query,
       returned (render query st)
       = returned st ++ matches st ::
           (if bool_decide (evaluate (media st) query = matches st) then []
            else [evaluate (media st) query])) ∧
  (mounted st = false → listeners st = []).
Proof.
  intros Hrun.
  destruct (mount_follows query0 media0)
    as (Hw0 & Hm0 & Hq0 & Hs0 & Hl0 & Hmt0 & Hret0).
  destruct (run_follows evs _ _ query0 Hrun) as (Hw & Hon & Hoff).
  { split; [done|]. split; [|by rewrite Hm0]. done. }
  split; [|done]. intros Hm.
  destruct (Hon Hm) as (Hq & Hs & Hl & Hmt & Hlast).
  repeat split; try done.
  intros query.
  by destruct (render_follows query st _ Hw Hm Hq Hs Hl Hmt)
    as (_ & _ & _ & _ & _ & _ & _ & ->).
Qed.

End MediaQueryProperties.

(** ** useOnClickOutside *)

Section ClickOutsideProperties.
Context {Node H : Type} `{EqDecision H}.
Variable contains : Node → option Node → bool.
Import ClickOutside.

Implicit Types (st : State Node H) (ev : Event Node H).

Lemma cleanup_removes_both (l : Listener H) :
  removeEventListener TouchStart l
    (removeEventListener MouseDown l [(MouseDown, l); (TouchStart, l)]) = [].
Proof.
  unfold removeEventListener.
  rewrite !filter_cons, filter_nil.
  repeat (case_decide; simpl; rewrite ?filter_cons, ?filter_nil);
    try done; congruence.
Qed.

Lemma listener_frame (l : Listener H) kind target st :
  deps (listener contains l kind target st) = deps st ∧
  cleanup (listener contains l kind target st) = cleanup st ∧
  registered (listener contains l kind target st) = registered st ∧
  current (listener contains l kind target st) = current st ∧
  mounted (listener contains l kind target st) = mounted st.
Proof.
  unfold listener. destruct (lref l ≫= _); [|done].
  by destruct (contains _ _).
Qed.

(** While subscribed, an event of either kind runs the listener once. *)
Lemma dispatch_once (l : Listener H) kind target st :
  registered st = [(MouseDown, l); (TouchStart, l)] →
  dispatch contains kind target st = listener contains l kind target st.
Proof.
  intros Hreg. unfold dispatch. rewrite Hreg. destruct kind; simpl; done.
Qed.

Lemma dispatch_frame kind target st :
  subscribed_once st →
  deps (dispatch contains kind target st) = deps st ∧
  cleanup (dispatch contains kind target st) = cleanup st ∧
  registered (dispatch contains kind target st) = registered st ∧
  current (dispatch contains kind target st) = current st ∧
  mounted (dispatch contains kind target st) = mounted st.
Proof.
  unfold subscribed_once. destruct (cleanup st) as [l|] eqn:Hc.
  - intros (Hreg & _). rewrite (dispatch_once l) by done.
    rewrite <- Hc. apply listener_frame.
  - intros Hreg. unfold dispatch. rewrite Hreg. simpl. by rewrite Hc.
Qed.

Lemma step_subscribed ev st st' :
  step contains ev st = Some st' →
  subscribed_once st ∧
    (mounted st = true → is_Some (deps st) → is_Some (cleanup st)) →
  subscribed_once st' ∧
    (mounted st' = true → is_Some (deps st') → is_Some (cleanup st')).
Proof.
  intros Hstep [Hsub Hdeps].
  destruct ev as [ref handler|r el|kind target|]; simpl in Hstep.
  - destruct (mounted st) eqn:Hm; [|done]. injection Hstep as <-.
    unfold render. destruct (decide _) as [Heq|Hne]; [by rewrite Hm|].
    unfold subscribed_once. simpl. split; [|eauto].
    unfold run_cleanup. unfold subscribed_once in Hsub.
    destruct (cleanup st) as [l|].
    + destruct Hsub as (-> & _). by rewrite cleanup_removes_both.
    + by rewrite Hsub.
  - injection Hstep as <-. done.
  - injection Hstep as <-.
    destruct (dispatch_frame kind target st Hsub) as (Hd & Hc & Hr & _ & Hm).
    unfold subscribed_once. rewrite Hd, Hc, Hr, Hm. done.
  - destruct (mounted st); [|done]. injection Hstep as <-.
    unfold subscribed_once, unmount, run_cleanup. simpl.
    unfold subscribed_once in Hsub. split; [|done].
    destruct (cleanup st) as [l|].
    + destruct Hsub as (-> & _). apply cleanup_removes_both.
    + done.
Qed.

Lemma run_subscribed evs st st' :
  run contains evs st = Some st' →
  subscribed_once st ∧
    (mounted st = true → is_Some (deps st) → is_Some (cleanup st)) →
  subscribed_once st' ∧
    (mounted st' = true → is_Some (deps st') → is_Some (cleanup st')).
Proof.
  revert st. induction evs as [|ev evs IH]; intros st; simpl.
  - by intros [= <-].
  - destruct (step contains ev st) as [st1|] eqn:Hstep; simpl; [|done].
    intros Hrun Hinv. eapply IH; [done|]. by eapply step_subscribed.
Qed.


(** After unmount both listeners are removed: no event calls a handler. *)
Theorem useOnClickOutside_unmounted_silent evs st kind target :
  run contains evs init = Some st →
  mounted st = false →
  registered st = [] ∧ dispatch contains kind target st = st.
Proof.
  intros Hrun Hm.
  destruct (run_subscribed evs _ _ Hrun) as [Hsub _].
  { split; [done|]. simpl. by intros _ [? [=]]. }
  unfold subscribed_once in Hsub.
  destruct (cleanup st) as [l|].
  - destruct Hsub as (_ & _ & Hm'). congruence.
  - split; [done|]. unfold dispatch. by rewrite Hsub.
Qed.

End ClickOutsideProperties.

(** ** useDownloadFile *)

Section DownloadProperties.
Context {Blob : Type}.
Import Download.

Implicit Types (st : State Blob) (ev : Event Blob).

Lemma filter_all {X : Type} (P : X → Prop) `{∀ x, Decision (P x)}
    (l : list X) :
  (∀ x, x ∈ l → P x) → filter P l = l.
Proof.
  induction l as [|x l IH]; intros Hall; [done|].
  rewrite filter_cons_True by (apply Hall; left).
  f_equal. apply IH. intros y Hy. apply Hall. by right.
Qed.

Lemma step_fresh now ev st st' :
  step now ev st = Some st' → fresh st → fresh st'.
Proof.
  intros Hstep (Hbody & Hurls & Htimers).
  destruct ev as [data fileName throws|data fileName at_|id|n];
    simpl in Hstep.
  - injection Hstep as <-. unfold downloadFile.
    destruct throws; [done|].
    split; [|split]; simpl.
    + intros a [Ha|Ha%list_elem_of_singleton]%elem_of_app.
      * specialize (Hbody a Ha). lia.
      * injection Ha as ->. lia.
    + intros u [x [[<- _]|[_ Hu]]%lookup_insert_Some]; [lia|].
      assert (u < nextUrl st)%nat by (apply Hurls; eauto). lia.
    + intros id c [[<- <-]|[_ Hc]]%lookup_insert_Some; simpl; [lia|].
      destruct (Htimers _ _ Hc) as (? & ? & ?). lia.
  - injection Hstep as <-. unfold interrupted.
    split; [|split]; simpl.
    + intros a Ha. assert (a ≤ nextAnchor st)%nat as Hle.
      { destruct at_; simpl in Ha;
          try (specialize (Hbody a Ha); lia);
          apply elem_of_app in Ha as [Ha|Ha%list_elem_of_singleton];
          try (specialize (Hbody a Ha); lia); injection Ha as ->; lia. }
      destruct at_; simpl in *; try lia;
        specialize (Hbody a Ha); lia.
    + intros u [x [[<- _]|[_ Hu]]%lookup_insert_Some]; [lia|].
      assert (u < nextUrl st)%nat by (apply Hurls; eauto). lia.
    + intros id c Hc. destruct (Htimers _ _ Hc) as (? & ? & ?).
      destruct (created at_); lia.
  - unfold fire in Hstep. destruct (timers st !! id) as [c|] eqn:Hc; [|done].
    destruct (Z.leb (due c) now); [|done]. injection Hstep as <-.
    split; [|split]; simpl.
    + intros a [_ Ha]%list_elem_of_filter. by apply Hbody.
    + intros u [x [_ Hu]%lookup_delete_Some]. apply Hurls. eauto.
    + intros id' c' [_ Hc']%lookup_delete_Some. by eapply Htimers.
  - injection Hstep as <-. split; [|done]. simpl.
    intros a [_ Ha]%list_elem_of_filter. by apply Hbody.
Qed.

Lemma run_fresh evs st st' :
  run evs st = Some st' → fresh st → fresh st'.
Proof.
  revert st. induction evs as [|[now ev] evs IH]; intros st; simpl.
  - by intros [= <-].
  - destruct (step now ev st) as [st1|] eqn:Hstep; simpl; [|done].
    intros Hrun Hfresh. eapply IH; [done|]. by eapply step_fresh.
Qed.

Lemma init_fresh body0 : fresh (@init Blob body0).
Proof.
  split; [|split]; simpl.
  - intros a (n & [=] & _)%list_elem_of_fmap.
  - intros u [x Hx]. by rewrite lookup_empty in Hx.
  - intros id c. by rewrite lookup_empty.
Qed.

Lemma step_accounted now ev st st' :
  uninterrupted [(now, ev)] = true →
  step now ev st = Some st' → accounted st → accounted st'.
Proof.
  intros Hev Hstep (Hurls & Hbody & Hfresh).
  destruct ev as [data fileName throws|data fileName at_|id|n];
    simpl in Hstep; [|done| |].
  - injection Hstep as <-. unfold downloadFile.
    destruct throws; [done|].
    assert (timers st !! nextTimer st = None) as Hnone.
    { destruct (timers st !! nextTimer st) as [c|] eqn:Hc; [|done].
      destruct (Hfresh _ _ Hc) as (_ & _ & Hlt). lia. }
    split; [|split]; simpl.
    + intros u [x [[<- _]|[Hne Hu]]%lookup_insert_Some].
      * eexists _, _. by rewrite lookup_insert_eq.
      * destruct (Hurls u) as (id & c & Hc & Huc); [by eauto|].
        exists id, c. split; [|done].
        rewrite lookup_insert_ne; [done|]. intros <-. congruence.
    + intros a [Ha|Ha%list_elem_of_singleton]%elem_of_app.
      * destruct (Hbody a Ha) as (id & c & Hc & Hlc).
        exists id, c. split; [|done].
        rewrite lookup_insert_ne; [done|]. intros <-. congruence.
      * injection Ha as ->. eexists _, _. by rewrite lookup_insert_eq.
    + intros id c [[<- <-]|[Hne Hc]]%lookup_insert_Some; simpl.
      * lia.
      * destruct (Hfresh _ _ Hc) as (? & ? & ?). lia.
  - unfold fire in Hstep. destruct (timers st !! id) as [c|] eqn:Hc; [|done].
    destruct (Z.leb (due c) now); [|done]. injection Hstep as <-.
    split; [|split]; simpl.
    + intros u [x [Hne Hu]%lookup_delete_Some].
      destruct (Hurls u) as (id' & c' & Hc' & Huc); [by eauto|].
      exists id', c'. split; [|done].
      rewrite lookup_delete_ne; [done|]. intros <-. congruence.
    + intros a [Hne Ha]%list_elem_of_filter.
      destruct (Hbody a Ha) as (id' & c' & Hc' & Hlc).
      exists id', c'. split; [|done].
      rewrite lookup_delete_ne; [done|]. intros <-. congruence.
    + intros id' c' [_ Hc']%lookup_delete_Some. by eapply Hfresh.
  - injection Hstep as <-. split; [done|]. split; [|done]. simpl.
    intros a [_ Ha]%list_elem_of_filter. by apply Hbody.
Qed.

Lemma run_accounted evs st st' :
  uninterrupted evs = true →
  run evs st = Some st' → accounted st → accounted st'.
Proof.
  revert st. induction evs as [|[now ev] evs IH]; intros st; simpl.
  - by intros _ [= <-].
  - intros [Hev Hevs]%andb_prop.
    destruct (step now ev st) as [st1|] eqn:Hstep; simpl; [|done].
    intros Hrun Hacc. eapply IH; [done|done|].
    eapply step_accounted; [|done|done]. simpl. by rewrite Hev.
Qed.

Lemma init_accounted body0 : accounted (@init Blob body0).
Proof.
  split; [|split]; simpl.
  - intros u [x Hx]. by rewrite lookup_empty in Hx.
  - intros a (n & [=] & _)%list_elem_of_fmap.
  - intros id c. by rewrite lookup_empty.
Qed.

(** An object URL that is alive and that no pending timer will revoke
    stays alive. *)
Lemma step_stranded u (data : Blob) now ev st st' :
  step now ev st = Some st' →
  urls st !! u = Some data ∧ (u < nextUrl st)%nat ∧
    (∀ id c, timers st !! id = Some c → url c ≠ u) →
  urls st' !! u = Some data ∧ (u < nextUrl st')%nat ∧
    (∀ id c, timers st' !! id = Some c → url c ≠ u).
Proof.
  intros Hstep (Hu & Hlt & Hno).
  destruct ev as [data' fileName throws|data' fileName at_|id|n];
    simpl in Hstep.
  - injection Hstep as <-. unfold downloadFile.
    destruct throws; [done|]. simpl.
    split; [by rewrite lookup_insert_ne by lia|]. split; [lia|].
    intros id c [[<- <-]|[_ Hc]]%lookup_insert_Some; simpl; [lia|].
    by eapply Hno.
  - injection Hstep as <-. unfold interrupted. simpl.
    split; [by rewrite lookup_insert_ne by lia|]. split; [lia|done].
  - unfold fire in Hstep. destruct (timers st !! id) as [c|] eqn:Hc; [|done].
    destruct (Z.leb (due c) now); [|done]. injection Hstep as <-. simpl.
    split; [|split; [done|]].
    + rewrite lookup_delete_ne; [done|]. by eapply Hno.
    + intros id' c' [_ Hc']%lookup_delete_Some. by eapply Hno.
  - by injection Hstep as <-.
Qed.

Lemma run_stranded u (data : Blob) evs st st' :
  run evs st = Some st' →
  urls st !! u = Some data ∧ (u < nextUrl st)%nat ∧
    (∀ id c, timers st !! id = Some c → url c ≠ u) →
  urls st' !! u = Some data.
Proof.
  revert st. induction evs as [|[now ev] evs IH]; intros st; simpl.
  - by intros [= <-] (? & _).
  - destruct (step now ev st) as [st1|] eqn:Hstep; simpl; [|done].
    intros Hrun Hinv. eapply IH; [done|]. by eapply step_stranded.
Qed.

(** As long as no statement after [createObjectURL] throws, nothing leaks:
    each object URL that is alive and each link the hook left in the page
    has a pending timer that will take it away, so once the timers have
    run no object URL is alive and no link of the hook is in the page. But
    the timeout is armed last, inside the [try]: when a statement after
    [createObjectURL] throws, the object URL it created is never revoked,
    whatever happens afterwards. *)
Theorem useDownloadFile_no_leak body0 evs st :
  run evs (init body0) = Some st →
  (uninterrupted evs = true →
     accounted st ∧
     (timers st = ∅ → urls st = ∅ ∧ ∀ a, Anchor a ∉ body st)) ∧
  (∀ data fileName at_ later st',
     run later (interrupted data fileName at_ st) = Some st' →
     urls st' !! nextUrl st = Some data).
Proof.
  intros Hrun. split.
  - intros Hevs.
    pose proof (run_accounted _ _ _ Hevs Hrun (init_accounted body0)) as Hacc.
    split; [done|]. intros Hempty. destruct Hacc as (Hurls & Hbody & _).
    split.
    + apply map_eq. intros u. rewrite lookup_empty.
      destruct (urls st !! u) as [x|] eqn:Hu; [|done].
      destruct (Hurls u) as (id & c & Hc & _); [by eauto|].
      by rewrite Hempty, lookup_empty in Hc.
    + intros a Ha. destruct (Hbody a Ha) as (id & c & Hc & _).
      by rewrite Hempty, lookup_empty in Hc.
  - intros data fileName at_ later st' Hlater.
    pose proof (run_fresh _ _ _ Hrun (init_fresh body0)) as (_ & _ & Htimers).
    eapply run_stranded; [done|]. unfold interrupted. simpl.
    split; [by rewrite lookup_insert_eq|]. split; [lia|].
    intros id c Hc. destruct (Htimers _ _ Hc) as (_ & ? & _). lia.
Qed.

(** A download followed by its cleanup timer is a round trip for the page:
    the link has been clicked once, with the given file name or 'file', and
    the children of the body, the object URLs and the pending timers are
    what they were before. The timer cannot run before 100 ms are over. *)
Theorem useDownloadFile_round_trip body0 evs st data fileName now now' :
  run evs (init body0) = Some st →
  let st1 := downloadFile data fileName false now st in
  (now' < now + 100 → fire (nextTimer st) now' st1 = None) ∧
  (now + 100 ≤ now' →
     ∃ st2, fire (nextTimer st) now' st1 = Some st2 ∧
            body st2 = body st ∧ urls st2 = urls st ∧
            timers st2 = timers st ∧
            clicked st2
            = clicked st ++ [(nextUrl st, default "file" fileName)] ∧
            isLoading st2 = false).
Proof.
  intros Hrun. simpl.
  pose proof (run_fresh _ _ _ Hrun (init_fresh body0))
    as (Hbody & Hurls & Htimers).
  unfold fire, downloadFile. simpl. rewrite lookup_insert_eq. simpl.
  split; intros Hnow; destruct (Z.leb_spec (now + 100) now'); try lia;
    [done|].
  eexists. split; [done|]. simpl. repeat split.
  - rewrite filter_app, filter_cons, filter_nil.
    rewrite decide_False by (by intros Hne; apply Hne).
    rewrite app_nil_r. apply filter_all. intros n Hn ->.
    specialize (Hbody _ Hn). lia.
  - rewrite delete_insert_eq. apply delete_id.
    destruct (urls st !! nextUrl st) as [x|] eqn:Hu; [|done].
    assert (nextUrl st < nextUrl st)%nat by (apply Hurls; eauto). lia.
  - rewrite delete_insert_eq. apply delete_id.
    destruct (timers st !! nextTimer st) as [c|] eqn:Hc; [|done].
    destruct (Htimers _ _ Hc) as (_ & _ & ?). lia.
Qed.

End DownloadProperties.

(** ** Instances *)

Lemma useFetch_retrigger_keeps_data_witness :
  let st := Fetch.settle_success 0 (Some "first")
              (Fetch.fetchData_start (@Fetch.init string)) in
  let whys := [Fetch.Refetch; Fetch.DescriptorChange] in
  Fetch.mounted st = true ∧ whys ≠ [] ∧
  ∃ st', Fetch.run (Fetch.Trigger <$> whys) st = Some st' ∧
         Fetch.visible st' = (Some "first", true, None) ∧
         Fetch.issued st' = (Fetch.issued st + length whys)%nat ∧
         ∀ op, (op < Fetch.issued st)%nat →
               Fetch.pending st' !! op = Fetch.pending st !! op.
Proof.
  intros st whys.
  assert (whys ≠ []) as Hne by discriminate.
  split; [reflexivity|]. split; [exact Hne|].
  exact (useFetch_retrigger_keeps_data st whys eq_refl Hne).
Defined.

Lemma useFetch_loading_lowered_early_witness :
  let st := Fetch.fetchData_start
              (Fetch.fetchData_start (@Fetch.init string)) in
  let ev := Fetch.FetchResolved 0 false 500 in
  let st' := Fetch.settle_failure 0 (Fetch.http_error 500) st in
  Fetch.mounted st = true ∧
  Fetch.settles ev = Some 0%nat ∧
  1%nat ≠ 0%nat ∧
  Fetch.pending st !! 1%nat = Some Fetch.AwaitFetch ∧
  Fetch.step ev st = Some st' ∧
  Fetch.loading st' = false ∧
  Fetch.pending st' !! 1%nat = Some Fetch.AwaitFetch.
Proof.
  intros st ev st'.
  assert (1%nat ≠ 0%nat) as Hne by discriminate.
  assert (Fetch.step ev st = Some st') as Hstep by reflexivity.
  split; [reflexivity|]. split; [reflexivity|]. split; [exact Hne|].
  split; [reflexivity|]. split; [exact Hstep|].
  exact (useFetch_loading_lowered_early st ev 0%nat 1%nat Fetch.AwaitFetch st'
           eq_refl eq_refl Hne eq_refl Hstep).
Defined.

Lemma http_error_inj_witness :
  Fetch.http_error 404 = Fetch.http_error 404 ∧ 404%nat = 404%nat.
Proof.
  split; [reflexivity|]. exact (http_error_inj 404 404 eq_refl).
Defined.

Lemma useThrottle_one_pending_timer_witness :
  let evs := [(1000, Throttle.Invoke "fn" 100 1%nat);
              (1010, Throttle.Invoke "fn" 100 2%nat);
              (1040, Throttle.Invoke "fn" 100 3%nat)] in
  ∃ st, Throttle.run evs Throttle.init = Some st ∧
        (size (Throttle.timers st) ≤ 1)%nat.
Proof.
  intros evs.
  destruct (Throttle.run evs Throttle.init) as [st|] eqn:Hrun; [|discriminate].
  exists st. split; [reflexivity|].
  exact (useThrottle_one_pending_timer evs st Hrun).
Defined.


Lemma useThrottle_overdue_timer_still_fires_witness :
  let st := Throttle.calls "fn" 100 [(1000, 1%nat); (1010, 2%nat)]
              Throttle.init in
  let t := Throttle.mkTimer 1100 "fn" 2%nat in
  Throttle.timers st !! 1%positive = Some t ∧
  100 ≤ 1100 - Throttle.lastExecuted st ∧
  Throttle.due t ≤ 1101 ∧
  ∃ st', Throttle.fire 1 1101 (Throttle.throttled "fn" 100 3%nat 1100 st)
         = Some st' ∧
         Throttle.invoked st'
         = Throttle.invoked st ++ [Throttle.mkCall 1100 "fn" 3%nat;
                                   Throttle.mkCall 1101 "fn" 2%nat].
Proof.
  intros st t.
  assert (100 ≤ 1100 - Throttle.lastExecuted st) as Hle by (simpl; lia).
  assert (Throttle.due t ≤ 1101) as Hdue by (simpl; lia).
  split; [reflexivity|]. split; [exact Hle|]. split; [exact Hdue|].
  exact (useThrottle_overdue_timer_still_fires st 1%positive t "fn" 100 3%nat
           1100 1101 eq_refl Hle Hdue).
Defined.

Lemma useThrottle_zero_delay_all_witness :
  let cs := [(1000, 1%nat); (1000, 2%nat); (1000, 3%nat)] in
  Throttle.chronological (Throttle.lastExecuted (@Throttle.init string nat)) cs ∧
  Throttle.invoked (Throttle.calls "fn" 0 cs Throttle.init)
  = Throttle.invoked Throttle.init ++ Throttle.calls_made "fn" cs ∧
  Throttle.timers (Throttle.calls "fn" 0 cs Throttle.init)
  = Throttle.timers Throttle.init.
Proof.
  intros cs.
  assert (Throttle.chronological
            (Throttle.lastExecuted (@Throttle.init string nat)) cs) as Hch.
  { simpl. repeat split; lia. }
  split; [exact Hch|].
  exact (useThrottle_zero_delay_all "fn" cs Throttle.init Hch).
Defined.

Lemma useThrottle_leading_edge_witness :
  let evs := [(1000, Throttle.Invoke "fn" 100 1%nat)] in
  let st := Throttle.throttled "fn" 100 1%nat 1000 Throttle.init in
  let c := Throttle.mkCall 1000 "fn" 1%nat in
  Throttle.run evs Throttle.init = Some st ∧
  last (Throttle.invoked st) = Some c ∧
  100 ≤ 1100 - Throttle.at_time c ∧
  Throttle.invoked (Throttle.throttled "fn" 100 2%nat 1100 st)
  = Throttle.invoked st ++ [Throttle.mkCall 1100 "fn" 2%nat] ∧
  Throttle.lastExecuted (Throttle.throttled "fn" 100 2%nat 1100 st) = 1100 ∧
  Throttle.timers (Throttle.throttled "fn" 100 2%nat 1100 st)
  = Throttle.timers st.
Proof.
  intros evs st c.
  assert (100 ≤ 1100 - Throttle.at_time c) as Hle by (simpl; lia).
  split; [reflexivity|]. split; [reflexivity|]. split; [exact Hle|].
  exact (useThrottle_leading_edge evs st c "fn" 100 2%nat 1100
           eq_refl eq_refl Hle).
Defined.

Lemma useInterval_timer_iff_period_witness :
  let evs := [(5000, Interval.Render "X" (Some 1000));
              (5400, Interval.Render "Y" (Some 1000))] in
  let st := Interval.render "Y" (Some 1000) 5400
              (Interval.render "X" (Some 1000) 5000 Interval.init) in
  Interval.run evs Interval.init = Some st ∧
  Interval.mounted st = true ∧
  Interval.delayDep st = Some (Some 1000) ∧
  ∃ id t, Interval.timers st = {[ id := t ]} ∧ Interval.period t = 1000 ∧
          Interval.cleanup st = Some id.
Proof.
  intros evs st.
  split; [reflexivity|]. split; [reflexivity|]. split; [reflexivity|].
  exact (proj1 (useInterval_timer_iff_period evs st eq_refl) 1000
           eq_refl eq_refl).
Defined.

Lemma useInterval_null_pauses_witness :
  let evs := [(5000, Interval.Render "X" (Some 1000))] in
  let st := Interval.render "X" (Some 1000) 5000 Interval.init in
  Interval.run evs Interval.init = Some st ∧
  Interval.timers (Interval.render "X" None 5400 st) = ∅ ∧
  Interval.savedCallback (Interval.render "X" None 5400 st) = Some "X" ∧
  ∀ id now', Interval.tick id now' (Interval.render "X" None 5400 st) = None.
Proof.
  intros evs st. split; [reflexivity|].
  exact (useInterval_null_pauses evs st "X" 5400 eq_refl).
Defined.

Lemma useInterval_period_change_rearms_witness :
  let evs := [(5000, Interval.Render "X" (Some 1000))] in
  let st := Interval.render "X" (Some 1000) 5000 Interval.init in
  Interval.run evs Interval.init = Some st ∧
  Interval.delayDep st ≠ Some (Some 250) ∧
  1 ≤ 250 ≤ 2147483647 ∧
  Interval.timers (Interval.render "X" (Some 250) 5400 st)
  = {[ Interval.nextId st := Interval.mkTimer 250 (5400 + 250) ]} ∧
  Interval.cleanup (Interval.render "X" (Some 250) 5400 st)
  = Some (Interval.nextId st).
Proof.
  intros evs st.
  assert (Interval.delayDep st ≠ Some (Some 250)) as Hne by discriminate.
  assert (1 ≤ 250 ≤ 2147483647) as Hrange by lia.
  split; [reflexivity|]. split; [exact Hne|]. split; [exact Hrange|].
  exact (useInterval_period_change_rearms evs st "X" 250 5400 eq_refl Hne
           Hrange).
Defined.

Lemma usePrevious_returns_previous_witness :
  let values := ["initial"; "updated"; "final"] in
  values !! 1%nat = Some "updated" ∧
  (2 < length values)%nat ∧
  Previous.renders values Previous.init !! 2%nat = Some (Some "updated").
Proof.
  intros values.
  assert (2 < length values)%nat as Hlt by (simpl; lia).
  split; [reflexivity|]. split; [exact Hlt|].
  exact (proj2 (usePrevious_returns_previous values) 1%nat "updated"
           eq_refl Hlt).
Defined.

Lemma useWindowSize_tracks_window_witness :
  let sz0 := WindowSize.mkSize 1024 768 in
  let evs := [WindowSize.Resize (WindowSize.mkSize 800 600);
              WindowSize.Effect;
              WindowSize.Resize (WindowSize.mkSize 1920 1080)] in
  let st := WindowSize.mkState (WindowSize.mkSize 1920 1080)
              WindowSize.Mounted (Some (WindowSize.mkSize 1920 1080)) true in
  WindowSize.run evs (WindowSize.first_render (Some sz0)) = Some st ∧
  WindowSize.phase st = WindowSize.Mounted ∧
  WindowSize.inner st = Some (WindowSize.windowSize st) ∧
  WindowSize.listening st = true.
Proof.
  intros sz0 evs st. split; [reflexivity|]. split; [reflexivity|].
  exact (useWindowSize_tracks_window sz0 evs st eq_refl eq_refl).
Defined.

Lemma useWindowSize_unmounted_frozen_witness :
  let sz0 := WindowSize.mkSize 1024 768 in
  let evs := [WindowSize.Effect; WindowSize.Unmount] in
  let st := WindowSize.mkState sz0 WindowSize.Unmounted (Some sz0) false in
  let later := [WindowSize.Resize (WindowSize.mkSize 800 600)] in
  let st' := WindowSize.mkState sz0 WindowSize.Unmounted
               (Some (WindowSize.mkSize 800 600)) false in
  WindowSize.run evs (WindowSize.first_render (Some sz0)) = Some st ∧
  WindowSize.phase st = WindowSize.Unmounted ∧
  WindowSize.run later st = Some st' ∧
  WindowSize.listening st' = false ∧
  WindowSize.windowSize st' = WindowSize.windowSize st.
Proof.
  intros sz0 evs st later st'.
  split; [reflexivity|]. split; [reflexivity|]. split; [reflexivity|].
  exact (useWindowSize_unmounted_frozen (Some sz0) evs st later st'
           eq_refl eq_refl eq_refl).
Defined.

Lemma useWindowSize_without_window_witness :
  let st := WindowSize.mkState (WindowSize.mkSize 0 0) WindowSize.Mounted
              None false in
  WindowSize.run [WindowSize.Effect; WindowSize.Rerender]
    (WindowSize.first_render None) = Some st ∧
  WindowSize.windowSize st = WindowSize.mkSize 0 0 ∧
  WindowSize.listening st = false ∧ WindowSize.inner st = None.
Proof.
  intros st. split; [reflexivity|].
  exact (useWindowSize_without_window
           [WindowSize.Effect; WindowSize.Rerender] st eq_refl).
Defined.

Lemma useMediaQuery_follows_query_witness :
  let mobile := "(max-width: 768px)" in
  let dark := "(prefers-color-scheme: dark)" in
  let evs := [MediaQuery.Change mobile true; MediaQuery.Render dark;
              MediaQuery.Change dark true; MediaQuery.Change mobile false] in
  let st := MediaQuery.mkState true (Some dark) (Some dark) [dark]
              (<[mobile := false]> (<[dark := true]> {[ mobile := true ]}))
              true true [false; true; true; false; true] in
  MediaQuery.run evs (MediaQuery.mount mobile ∅ true) = Some st ∧
  MediaQuery.mounted st = true ∧
  MediaQuery.queryDep st = Some dark ∧
  MediaQuery.listeners st = [dark] ∧
  MediaQuery.matches st = MediaQuery.evaluate (MediaQuery.media st) dark ∧
  last (MediaQuery.returned st) = Some (MediaQuery.matches st) ∧
  ∀ query,
    MediaQuery.returned (MediaQuery.render query st)
    = MediaQuery.returned st ++ MediaQuery.matches st ::
        (if bool_decide (MediaQuery.evaluate (MediaQuery.media st) query
                         = MediaQuery.matches st) then []
         else [MediaQuery.evaluate (MediaQuery.media st) query]).
Proof.
  intros mobile dark evs st.
  assert (MediaQuery.run evs (MediaQuery.mount mobile ∅ true) = Some st)
    as Hrun by (vm_compute; reflexivity).
  split; [exact Hrun|]. split; [reflexivity|].
  exact (proj1 (useMediaQuery_follows_query mobile ∅ evs st Hrun) eq_refl).
Defined.

(** The render that changes the query returns the state of the old query
    first: mounted on a query that matches, rendered with one that does
    not, the hook returns true once more and then false. *)
Example media_query_stale_render :
  MediaQuery.returned
    (MediaQuery.render "(prefers-color-scheme: dark)"
       (MediaQuery.mount "(max-width: 768px)"
          {[ "(max-width: 768px)" := true ]} true))
  = [true; true; false].
Proof. vm_compute. reflexivity. Qed.


(** The same history, evaluated: the click outside calls the handler of
    the last render once; a click on the element calls nothing. *)
Example click_outside_scenario :
  ClickOutside.invoked <$>
    ClickOutside.run ClickOutside.flat_contains
      [ClickOutside.Render (Some 0%nat) "close";
       ClickOutside.Assign 0 (Some 7%nat);
       ClickOutside.Render (Some 0%nat) "dismiss";
       ClickOutside.Dispatch ClickOutside.MouseDown (Some 9%nat);
       ClickOutside.Dispatch ClickOutside.TouchStart (Some 7%nat);
       ClickOutside.Dispatch ClickOutside.MouseDown None]
      ClickOutside.init
  = Some [("dismiss", ClickOutside.MouseDown, Some 9%nat);
          ("dismiss", ClickOutside.MouseDown, None)].
Proof. vm_compute. reflexivity. Qed.

Lemma useOnClickOutside_unmounted_silent_witness :
  let evs := [ClickOutside.Render (Some 0%nat) "close";
              ClickOutside.Assign 0 (Some 7%nat);
              ClickOutside.Unmount] in
  ∃ st, ClickOutside.run ClickOutside.flat_contains evs ClickOutside.init = Some st ∧
        ClickOutside.mounted st = false ∧
        ClickOutside.registered st = [] ∧
        ClickOutside.dispatch ClickOutside.flat_contains ClickOutside.MouseDown
          (Some 9%nat) st = st.
Proof.
  intros evs.
  destruct (ClickOutside.run ClickOutside.flat_contains evs ClickOutside.init)
    as [st|] eqn:Hrun; [|vm_compute in Hrun; discriminate].
  assert (ClickOutside.mounted st = false) as Hm.
  { vm_compute in Hrun. injection Hrun as <-. reflexivity. }
  exists st. split; [reflexivity|]. split; [exact Hm|].
  exact (useOnClickOutside_unmounted_silent ClickOutside.flat_contains evs st
           ClickOutside.MouseDown (Some 9%nat) Hrun Hm).
Defined.

Lemma useDownloadFile_no_leak_witness :
  let evs := [(1000, Download.Download "blob-a" (Some "a.txt") false);
              (1020, Download.Download "blob-b" None false);
              (1100, Download.Fire 1%positive);
              (1130, Download.Fire 2%positive)] in
  let later := [(1300, Download.Download "blob-d" None false);
                (1400, Download.Fire 3%positive)] in
  ∃ st st',
    Download.run evs (Download.init [0%nat; 1%nat]) = Some st ∧
    Download.uninterrupted evs = true ∧
    Download.run later
      (Download.interrupted "blob-c" None Download.AtClick st) = Some st' ∧
    (Download.accounted st ∧
     (Download.timers st = ∅ →
        Download.urls st = ∅ ∧ ∀ a, Download.Anchor a ∉ Download.body st)) ∧
    Download.urls st' !! Download.nextUrl st = Some "blob-c".
Proof.
  intros evs later.
  destruct (Download.run evs (Download.init [0%nat; 1%nat]))
    as [st|] eqn:Hrun; [|vm_compute in Hrun; discriminate].
  destruct (Download.run later
              (Download.interrupted "blob-c" None Download.AtClick st))
    as [st'|] eqn:Hlater;
    [|vm_compute in Hrun; injection Hrun as <-;
      vm_compute in Hlater; discriminate].
  exists st, st'. split; [reflexivity|]. split; [reflexivity|].
  split; [exact Hlater|].
  destruct (useDownloadFile_no_leak [0%nat; 1%nat] evs st Hrun)
    as [Hclean Hleak].
  split; [exact (Hclean eq_refl)|].
  exact (Hleak "blob-c" None Download.AtClick later st' Hlater).
Defined.

(** A download whose [link.click()] throws, evaluated: after a later
    download and its cleanup, the URL and the link of the interrupted one
    are still there. *)
Example download_interrupted_scenario :
  (λ st, (Download.body st, size (Download.urls st),
          size (Download.timers st))) <$>
    Download.run [(1000, Download.Interrupted "blob-c" None Download.AtClick);
                  (1300, Download.Download "blob-d" None false);
                  (1400, Download.Fire 1%positive)]
      (Download.init [0%nat])
  = Some ([Download.Foreign 0; Download.Anchor 0], 1%nat, 0%nat).
Proof. vm_compute. reflexivity. Qed.

(** The same history, evaluated: both downloads were started, the second
    under the default name, and the page is as it was. *)
Example download_scenario :
  (λ st, (Download.clicked st, Download.body st, size (Download.urls st))) <$>
    Download.run [(1000, Download.Download "blob-a" (Some "a.txt") false);
                  (1020, Download.Download "blob-b" None false);
                  (1100, Download.Fire 1%positive);
                  (1130, Download.Fire 2%positive)]
      (Download.init [0%nat; 1%nat])
  = Some ([(0%nat, "a.txt"); (1%nat, "file")],
          [Download.Foreign 0; Download.Foreign 1], 0%nat).
Proof. vm_compute. reflexivity. Qed.

Lemma useDownloadFile_round_trip_witness :
  let evs := [(1000, Download.Download "blob-a" (Some "a.txt") false)] in
  let st := Download.downloadFile "blob-a" (Some "a.txt") false 1000
              (Download.init [0%nat]) in
  let st1 := Download.downloadFile "blob-b" None false 1020 st in
  Download.run evs (Download.init [0%nat]) = Some st ∧
  (1119 < 1020 + 100 → Download.fire (Download.nextTimer st) 1119 st1 = None) ∧
  (1020 + 100 ≤ 1120 →
     ∃ st2, Download.fire (Download.nextTimer st) 1120 st1 = Some st2 ∧
            Download.body st2 = Download.body st ∧
            Download.urls st2 = Download.urls st ∧
            Download.timers st2 = Download.timers st ∧
            Download.clicked st2
            = Download.clicked st ++ [(Download.nextUrl st, "file")] ∧
            Download.isLoading st2 = false).
Proof.
  intros evs st st1. split; [reflexivity|].
  split.
  - exact (proj1 (useDownloadFile_round_trip [0%nat] evs st "blob-b" None
                    1020 1119 eq_refl)).
  - exact (proj2 (useDownloadFile_round_trip [0%nat] evs st "blob-b" None
                    1020 1120 eq_refl)).
Defined.
